(** * redis-connection-pool.js: a shallow embedding and its properties

    The development follows [src/redis-connection-pool.js].  JavaScript
    values are a small inductive type; the closures the source hands to the
    pool, to the redis client and to [setTimeout] are defunctionalised (one
    constructor per closure, carrying the captured variables); every source
    function is a transformer of the instance's run-time state, and the
    event loop is a step function over external inputs (a store reply, a
    timer firing, a probe client event).  The [generic-pool] object is not
    part of the repository sources and is modelled from its contract. *)

From Stdlib Require Import ZArith Lia.
From stdpp Require Import base gmap strings list pretty.

Local Open Scope string_scope.
Local Set Warnings "-register-all".

(* ================================================================== *)
(** ** JavaScript values *)
(* ================================================================== *)

Module JS.

(** Identity of a function value (a caller's continuation). *)
Definition fn_id := nat.

(** The values that reach the library: arguments supplied by callers and
    replies supplied by the redis client.  Numbers are the integers
    (no NaN, no fractions); an object is a reply hash as the redis client
    builds it for HGETALL (field name to string value). *)
Inductive jsval : Type :=
| JUndefined
| JNull
| JBool (b : bool)
| JNum (n : Z)
| JStr (s : string)
| JFun (f : fn_id)
| JArr (xs : list jsval)
| JObj (fields : list (string * string)).

(** [typeof v] *)
Definition typeof (v : jsval) : string :=
  match v with
  | JUndefined => "undefined"
  | JNull => "object"
  | JBool _ => "boolean"
  | JNum _ => "number"
  | JStr _ => "string"
  | JFun _ => "function"
  | JArr _ => "object"
  | JObj _ => "object"
  end.

(** ToBoolean: the test of [if (v)] and the operand of [!v]. *)
Definition truthy (v : jsval) : bool :=
  match v with
  | JUndefined => false
  | JNull => false
  | JBool b => b
  | JNum n => negb (n =? 0)%Z
  | JStr s => negb (s =? "")
  | JFun _ => true
  | JArr _ => true
  | JObj _ => true
  end.

Fixpoint assoc (k : string) (fs : list (string * string)) : option string :=
  match fs with
  | [] => None
  | (k', v) :: fs' => if k' =? k then Some v else assoc k fs'
  end.

(** [v[i]] for a numeric index, on a value that is neither [null] nor
    [undefined] (on those the access throws; every use in the source is
    guarded by a truthiness test). *)
Definition index (v : jsval) (i : nat) : jsval :=
  match v with
  | JArr xs => default JUndefined (xs !! i)
  | JStr s =>
      match String.get i s with
      | Some ch => JStr (String ch EmptyString)
      | None => JUndefined
      end
  | JObj fs => from_option JStr JUndefined (assoc (pretty i) fs)
  | _ => JUndefined
  end.

(** Whether [v.forEach] is truthy, and what calling it does: arrays carry
    [Array.prototype.forEach]; a reply hash carries it only as a field of
    that name, whose value is a string and cannot be called; no other
    value has the property. *)
Inductive forEach_kind := FE_array (xs : list jsval) | FE_not_callable | FE_absent.

Definition forEach_of (v : jsval) : forEach_kind :=
  match v with
  | JArr xs => FE_array xs
  | JObj fs =>
      match assoc "forEach" fs with
      | Some s => if truthy (JStr s) then FE_not_callable else FE_absent
      | None => FE_absent
      end
  | _ => FE_absent
  end.

(** ToString of a property key, for the values used as keys here. *)
Definition prop_key (v : jsval) : string :=
  match v with
  | JUndefined => "undefined"
  | JNull => "null"
  | JBool true => "true"
  | JBool false => "false"
  | JNum n => pretty n
  | JStr s => s
  | JFun _ => "function"
  | JArr _ => "array"
  | JObj _ => "[object Object]"
  end.

End JS.
Export JS.

(* ================================================================== *)
(** ** The pool *)
(* ================================================================== *)

(** A pooled connection, named by its creation order: the factory in the
    constructor labels the client ["client"+i] and increments [i]. *)
Definition conn := nat.

Module Pool.
Section WithWaiter.

(** The callbacks queued by [acquire]. *)
Context {W : Type}.

(** Modelled from the spec: the [generic-pool] object built by [Pool({...})]
    is a dependency, absent from the sources.  The model follows the
    contract of the Pool component: a bounded set of connections, FIFO
    queueing of acquisitions beyond capacity, [release] returning a
    connection to the idle set or handing it to the longest waiter and
    doing nothing on a destroyed connection, [destroy] closing the session,
    dropping the connection from the tracked set and letting a replacement
    be created.  [created] is the factory's counter [i]; [dead] lists the
    connections whose session the factory's [destroy] closed with
    [client.quit()]. *)
Record t : Type := mk {
  max : Z;
  created : nat;
  idle : list conn;
  busy : list conn;
  dead : list conn;
  waiting : list W
}.

Definition init (max_clients : Z) : t :=
  mk max_clients 0 [] [] [] [].

Definition size (p : t) : nat := length (idle p) + length (busy p).

Definition has_room (p : t) : bool := (Z.of_nat (size p) <? max p)%Z.

Definition without (c : conn) (l : list conn) : list conn :=
  filter (fun x => x ≠ c) l.

(** The factory's [create]: a new client labelled by the counter, in use
    from its first moment.  The factory calls the pool back from the
    client's ['ready'] listener; the model makes that hand-over part of the
    step that created the client, so it records a command on a new
    connection as sent when it is requested, where the source sends it once
    the client is ready. *)
Definition create (p : t) : t * conn :=
  (mk (max p) (S (created p)) (idle p) (busy p ++ [created p]) (dead p) (waiting p),
   created p).

(** Modelled from the spec: [pool.acquire(w)] of the absent [generic-pool].
    An idle connection is handed out, else one is created under the
    capacity bound, else the request queues behind the earlier ones.  The
    result names the callback to run now and the connection it receives, if
    any. *)
Definition acquire (w : W) (p : t) : t * option (W * conn) :=
  match idle p with
  | c :: rest =>
      (mk (max p) (created p) rest (busy p ++ [c]) (dead p) (waiting p), Some (w, c))
  | [] =>
      if has_room p then
        let '(p', c) := create p in (p', Some (w, c))
      else
        (mk (max p) (created p) (idle p) (busy p) (dead p) (waiting p ++ [w]), None)
  end.

(** Modelled from the spec: [pool.release(c)] of the absent [generic-pool].
    A checked-out connection goes to the longest waiter if there is one and
    to the idle set otherwise; on any other connection, a destroyed one in
    particular, the call does nothing. *)
Definition release (c : conn) (p : t) : t * option (W * conn) :=
  if bool_decide (c ∈ busy p) then
    match waiting p with
    | w :: ws =>
        (mk (max p) (created p) (idle p) (busy p) (dead p) ws, Some (w, c))
    | [] =>
        (mk (max p) (created p) (idle p ++ [c]) (without c (busy p)) (dead p) [], None)
    end
  else (p, None).

(** Modelled from the spec: [pool.destroy(c)] of the absent [generic-pool].
    The session is closed and the connection leaves the tracked set; a
    waiter, if any, gets a replacement when the bound allows.  On a
    connection the pool does not track (one it has destroyed already, for
    instance) there is nothing to do. *)
Definition destroy (c : conn) (p : t) : t * option (W * conn) :=
  if bool_decide (c ∈ idle p ∨ c ∈ busy p) then
    let p1 := mk (max p) (created p) (without c (idle p)) (without c (busy p))
                 (c :: dead p) (waiting p) in
    match waiting p1 with
    | w :: ws =>
        if has_room p1 then
          let '(p2, c') := create p1 in
          (mk (max p2) (created p2) (idle p2) (busy p2) (dead p2) ws, Some (w, c'))
        else (p1, None)
    | [] => (p1, None)
    end
  else (p, None).

(** What the bookkeeping maintains: every connection it knows was created
    by the factory, and a destroyed connection is tracked nowhere. *)
Definition wf (p : t) : Prop :=
  (∀ c, c ∈ idle p → c < created p) ∧
  (∀ c, c ∈ busy p → c < created p) ∧
  (∀ c, c ∈ dead p → c < created p) ∧
  (∀ c, c ∈ dead p → (c ∉ idle p) ∧ (c ∉ busy p)).

(** The capacity bound. *)
Definition bounded (p : t) : Prop := (Z.of_nat (size p) ≤ max p)%Z.

(** A destroyed connection stays destroyed, the bookkeeping stays well
    formed, and whatever the operation dispenses is another connection. *)
Definition keeps (c0 : conn) (r : t * option (W * conn)) : Prop :=
  wf r.1 ∧ c0 ∈ dead r.1 ∧ ∀ w c, r.2 = Some (w, c) → c ≠ c0.

End WithWaiter.
Arguments t : clear implicits.
End Pool.

(* ================================================================== *)
(** ** The instance and its run-time state *)
(* ================================================================== *)

Module RCP.

(** The closures passed to [pool.acquire], with their captured variables:
    the one of [redisSingle], of [_setFuncs] and of [_getFuncs]. *)
Inductive acquirer : Type :=
| A_single (funcName : string) (key val : jsval)
| A_set (funcName : string) (key field data cb : jsval)
| A_get (funcName : string) (key field cb : jsval).

(** A redis client is either a pooled connection or one opened directly
    with [redis.createClient] (by [redisCheck], [clean] and [on]). *)
Inductive client_ref : Type :=
| Pooled (c : conn)
| Direct (a : nat).

(** The reply callbacks handed to the redis client.  [r] is the address of
    the activation's local variable [responded]. *)
Inductive handler : Type :=
| H_single (client : conn)
| H_set (funcName : string) (client : conn) (cb : jsval)
| H_get (funcName : string) (client : conn) (key cb : jsval) (r : nat)
| H_hashget (client : conn) (key cb : jsval)
| H_blocking (funcName : string) (client : conn) (cb : jsval) (r : nat)
| H_keys (a : nat) (key cb : jsval).

(** A command sent to the store and not yet answered. *)
Record request : Type := mkRequest {
  rq_client : client_ref;
  rq_cmd : string;
  rq_args : list jsval;
  rq_handler : handler
}.

(** The functions given to [setTimeout]: the anonymous watchdog of
    [redisGet] and [poolStats] of the constructor. *)
Inductive timer : Type :=
| T_watchdog (funcName : string) (key : jsval) (client : conn) (r : nat)
| T_poolStats.

(** A [Q.defer()] deferred. *)
Inductive promise : Type :=
| Pending
| Resolved (v : jsval)
| Rejected (e : jsval).

Inductive role : Type :=
| Probe (q : nat)
| Cleaner
| Listener (type cb : jsval).

(** A directly opened client: what it was opened for and how many times
    [quit()] was called on it. *)
Record direct_client : Type := mkDirect {
  dc_role : role;
  dc_quits : nat
}.

(** Everything observable, in order of occurrence. *)
Inductive event : Type :=
| E_acquire (a : acquirer)
| E_release (c : conn)
| E_destroy (c : conn)
| E_send (c : client_ref) (cmd : string) (args : list jsval)
| E_call (f : fn_id) (args : list jsval)
| E_log (text : string) (vals : list jsval)
| E_uncaught (what : string).

(** [client.server_info] as the redis client fills it in. *)
Record server_info : Type := mkInfo {
  redis_version : string;
  versions : list Z
}.

(** The properties of a RedisConnectionPool object: those of
    [RedisConnectionPool.prototype] and [pool].  [None] is [undefined]. *)
Record Instance : Type := mkInstance {
  UID : string;
  DEBUG : bool;
  HOST : string;
  PORT : Z;
  MAX_CLIENTS : Z;
  BLOCKING_SUPPORT : bool;
  PERFORM_CHECKS : bool;
  VERSION_ARRAY : option (list Z);
  VERSION_STRING : option string;
  pool : Pool.t acquirer
}.

(** [RedisConnectionPool.prototype] *)
Definition prototype_UID : string := "redis-connection-pool-".
Definition prototype_DEBUG : bool := false.
Definition prototype_HOST : string := "127.0.0.1".
Definition prototype_PORT : Z := 6379.
Definition prototype_MAX_CLIENTS : Z := 30.
Definition prototype_BLOCKING_SUPPORT : bool := true.
Definition prototype_PERFORM_CHECKS : bool := false.

(** An instance with the state the event loop keeps for it. *)
Record world : Type := mkWorld {
  this : Instance;
  responded : list bool;
  requests : list request;
  timers : list (Z * timer);
  direct : list direct_client;
  promises : list promise;
  trace : list event
}.

Definition set_this (i : Instance) (w : world) : world :=
  mkWorld i (responded w) (requests w) (timers w) (direct w) (promises w) (trace w).

Definition set_pool (p : Pool.t acquirer) (w : world) : world :=
  let i := this w in
  set_this (mkInstance (UID i) (DEBUG i) (HOST i) (PORT i) (MAX_CLIENTS i)
              (BLOCKING_SUPPORT i) (PERFORM_CHECKS i) (VERSION_ARRAY i)
              (VERSION_STRING i) p) w.

Definition set_responded (l : list bool) (w : world) : world :=
  mkWorld (this w) l (requests w) (timers w) (direct w) (promises w) (trace w).

Definition set_requests (l : list request) (w : world) : world :=
  mkWorld (this w) (responded w) l (timers w) (direct w) (promises w) (trace w).

Definition set_timers (l : list (Z * timer)) (w : world) : world :=
  mkWorld (this w) (responded w) (requests w) l (direct w) (promises w) (trace w).

Definition set_direct (l : list direct_client) (w : world) : world :=
  mkWorld (this w) (responded w) (requests w) (timers w) l (promises w) (trace w).

Definition set_promises (l : list promise) (w : world) : world :=
  mkWorld (this w) (responded w) (requests w) (timers w) (direct w) l (trace w).

Definition emit (e : event) (w : world) : world :=
  mkWorld (this w) (responded w) (requests w) (timers w) (direct w) (promises w)
          (trace w ++ [e]).

(** [client[cmd](args..., h)] *)
Definition send (c : client_ref) (cmd : string) (args : list jsval) (h : handler)
    (w : world) : world :=
  emit (E_send c cmd args) (set_requests (requests w ++ [mkRequest c cmd args h]) w).

(** [setTimeout(t, ms)] *)
Definition setTimeout (t : timer) (ms : Z) (w : world) : world :=
  set_timers (timers w ++ [(ms, t)]) w.

(** [cb(args...)]: calling a value that is not a function throws. *)
Definition invoke (cb : jsval) (args : list jsval) (w : world) : world :=
  match cb with
  | JFun f => emit (E_call f args) w
  | _ => emit (E_uncaught "TypeError: cb is not a function") w
  end.

(** [client.quit()] on a directly opened client. *)
Definition quit (a : nat) (w : world) : world :=
  match direct w !! a with
  | Some d => set_direct (<[a := mkDirect (dc_role d) (S (dc_quits d))]> (direct w)) w
  | None => w
  end.

(** [redis.createClient(...)] outside the pool. *)
Definition createClient (r : role) (w : world) : world * nat :=
  (set_direct (direct w ++ [mkDirect r 0]) w, length (direct w)).

(* ---------------------------------------------------------------- *)
(** *** The dispatcher *)
(* ---------------------------------------------------------------- *)

(** works for get and hgetall *)
Definition redisGet (funcName : string) (client : conn) (key cb : jsval)
    (w : world) : world :=
  let r := length (responded w) in
  let w1 := set_responded (responded w ++ [false]) w in
  let w2 := send (Pooled client) funcName [key] (H_get funcName client key cb r) w1 in
  setTimeout (T_watchdog funcName key client r) 5000 w2.

Definition redisHashGet (client : conn) (key field cb : jsval) (w : world) : world :=
  if truthy field then
    send (Pooled client) "hget" [key; field] (H_hashget client key cb) w
  else
    send (Pooled client) "hgetall" [key] (H_hashget client key cb) w.

Definition redisBlockingGet (funcName : string) (client : conn) (key cb : jsval)
    (w : world) : world :=
  let r := length (responded w) in
  let w1 := set_responded (responded w ++ [false]) w in
  send (Pooled client) funcName [key; JNum 0] (H_blocking funcName client cb r) w1.

(** The body of the callback given to [pool.acquire], run when the pool
    hands [client] to it.  (The factory of the constructor reports no
    creation failure: the callback always receives a client.) *)
Definition acquired (a : acquirer) (client : conn) (w : world) : world :=
  match a with
  | A_single funcName key val =>
      if truthy val then
        send (Pooled client) funcName [key; val] (H_single client) w
      else
        send (Pooled client) funcName [key] (H_single client) w
  | A_set funcName key field data cb =>
      if funcName =? "hset" then
        send (Pooled client) funcName [key; field; data] (H_set funcName client cb) w
      else if funcName =? "set" then
        send (Pooled client) funcName [key; data] (H_set funcName client cb) w
      else
        send (Pooled client) funcName [key; data] (H_set funcName client cb) w
  | A_get funcName key field cb =>
      if (funcName =? "get") || (funcName =? "hgetall") then
        redisGet funcName client key cb w
      else if funcName =? "blpop" then
        redisBlockingGet "blpop" client key cb w
      else if funcName =? "brpop" then
        redisBlockingGet "brpop" client key cb w
      else if funcName =? "hget" then
        redisHashGet client key field cb w
      else if funcName =? "hgetall" then
        redisHashGet client key JNull cb w
      else w
  end.

Definition resume (d : option (acquirer * conn)) (w : world) : world :=
  match d with
  | Some (a, c) => acquired a c w
  | None => w
  end.

(** [pool.acquire(a)], [pool.release(client)], [pool.destroy(client)]:
    the pool runs the callback it dispenses to before it returns. *)
Definition pool_acquire (a : acquirer) (w : world) : world :=
  let '(p, d) := Pool.acquire a (pool (this w)) in
  resume d (set_pool p (emit (E_acquire a) w)).

Definition pool_release (client : conn) (w : world) : world :=
  let '(p, d) := Pool.release client (pool (this w)) in
  resume d (set_pool p (emit (E_release client) w)).

Definition pool_destroy (client : conn) (w : world) : world :=
  let '(p, d) := Pool.destroy client (pool (this w)) in
  resume d (set_pool p (emit (E_destroy client) w)).

Definition redisSingle (funcName : string) (key val : jsval) (w : world) : world :=
  pool_acquire (A_single funcName key val) w.

Definition _setFuncs (funcName : string) (key field data cb : jsval)
    (w : world) : world :=
  let '(field, data, cb) :=
    if typeof cb =? "undefined" then (JNull, field, data) else (field, data, cb) in
  pool_acquire (A_set funcName key field data cb) w.

Definition _getFuncs (funcName : string) (key field cb : jsval) (w : world) : world :=
  let '(field, cb) :=
    if (typeof field =? "function") && (typeof cb =? "undefined")
    then (JNull, field) else (field, cb) in
  pool_acquire (A_get funcName key field cb) w.

(* ---------------------------------------------------------------- *)
(** *** The methods of the prototype *)
(* ---------------------------------------------------------------- *)

Definition on (type cb : jsval) (w : world) : world :=
  fst (createClient (Listener type cb) w).

Definition expire (key data : jsval) : world → world :=
  redisSingle "expire" key data.

Definition set (key data cb : jsval) : world → world :=
  _setFuncs "set" key data cb JUndefined.

Definition get (key cb : jsval) : world → world :=
  _getFuncs "get" key cb JUndefined.

Definition del (key : jsval) : world → world :=
  redisSingle "del" key JUndefined.

Definition hset (key field data cb : jsval) : world → world :=
  _setFuncs "hset" key field data cb.

Definition hget (key field cb : jsval) : world → world :=
  _getFuncs "hget" key field cb.

Definition hgetall (key cb : jsval) : world → world :=
  _getFuncs "hgetall" key cb JUndefined.

Definition rpush (key data cb : jsval) : world → world :=
  _setFuncs "rpush" key data cb JUndefined.

Definition lpush (key data cb : jsval) : world → world :=
  _setFuncs "lpush" key data cb JUndefined.

Definition blpop (key cb : jsval) : world → world :=
  _getFuncs "blpop" key cb JUndefined.

Definition brpop (key cb : jsval) : world → world :=
  _getFuncs "brpop" key cb JUndefined.

Definition clean (key cb : jsval) (w : world) : world :=
  let w1 := emit (E_log "redis-connection-pool: clearing redis key " [key]) w in
  let '(w2, a) := createClient Cleaner w1 in
  send (Direct a) "keys" [key] (H_keys a key cb) w2.

(* ---------------------------------------------------------------- *)
(** *** Reply callbacks and timers *)
(* ---------------------------------------------------------------- *)

(** [responded = true] *)
Definition mark_responded (r : nat) (w : world) : world :=
  set_responded (<[r := true]> (responded w)) w.

(** The [forEach] loop of [clean]. *)
Definition delete_each (names : list jsval) (w : world) : world :=
  fold_left
    (fun w name => del name (emit (E_log "redis-connection-pool: deleting name " [name]) w))
    names w.

(** The body of each reply callback, applied to the [(err, reply)] the
    redis client passes to it. *)
Definition fire (h : handler) (err reply : jsval) (w : world) : world :=
  match h with
  | H_single client => pool_release client w
  | H_set funcName client cb =>
      let w1 := pool_release client w in
      let w2 :=
        if truthy err then
          if (funcName =? "hset") || (funcName =? "set") then
            emit (E_log ("ERROR redis-connection-pool: " +:+ funcName +:+ ": ") [err]) w1
          else
            emit (E_log "ERROR redis-connection-pool: " [err]) w1
        else w1 in
      if typeof cb =? "function" then invoke cb [err; reply] w2 else w2
  | H_get funcName client key cb r =>
      let w1 := pool_release client (mark_responded r w) in
      if truthy err then
        invoke cb [err; JNull]
          (emit (E_log ("ERROR: redis error (" +:+ funcName +:+ " ") [key; err]) w1)
      else invoke cb [err; reply] w1
  | H_hashget client key cb =>
      let w1 := pool_release client w in
      if truthy err then
        invoke cb [err; JNull] (emit (E_log "ERROR: redis error (hget " [key; err]) w1)
      else invoke cb [err; reply] w1
  | H_blocking funcName client cb r =>
      let w1 := pool_release client (mark_responded r w) in
      if truthy err then
        invoke cb [err; JNull]
          (emit (E_log ("ERROR redis-connection-pool: (" +:+ funcName +:+ ")") [err]) w1)
      else if negb (truthy reply) || (typeof (index reply 1) =? "undefined") then
        invoke cb [JStr "got bad reply from redis"; JArr []]
          (emit (E_log "ERROR redis-connection-pool: got a bad reply: " [reply]) w1)
      else invoke cb [err; reply] w1
  | H_keys a key cb =>
      let w1 := quit a w in
      let no_list :=
        emit (E_log "ERROR redis-connection-pool: couldnt get keys list on key " [key; reply]) w1 in
      let looped :=
        if truthy reply then
          match forEach_of reply with
          | FE_array names => Some (delete_each names w1)
          | FE_not_callable => None
          | FE_absent => Some no_list
          end
        else Some no_list in
      match looped with
      | None => emit (E_uncaught "TypeError: keys.forEach is not a function") w1
      | Some w2 =>
          let w3 :=
            if truthy err then
              emit (E_log "ERROR redis-connection-pool: failed clearing redis queue. " [err]) w2
            else w2 in
          invoke cb [] w3
      end
  end.

(** The body of each timer function.  [poolStats] reads a variable [pool]
    that no enclosing scope declares. *)
Definition fire_timer (t : timer) (w : world) : world :=
  match t with
  | T_watchdog funcName key client r =>
      if negb (default false (responded w !! r)) then
        pool_destroy client
          (emit (E_log ("ERROR: redis." +:+ funcName +:+ " never returned (5s), destroying connection. ")
                       [key]) w)
      else w
  | T_poolStats => emit (E_uncaught "ReferenceError: pool is not defined") w
  end.

(* ---------------------------------------------------------------- *)
(** *** The capability probe *)
(* ---------------------------------------------------------------- *)

(** [redisCheck]: the deferred, the dedicated client and its two
    listeners; the value is [q.promise].  (Registering a listener does not
    throw, so the [catch] block has no run.) *)
Definition redisCheck (w : world) : world * nat :=
  let q := length (promises w) in
  let w1 := set_promises (promises w ++ [Pending]) w in
  let '(w2, _) := createClient (Probe q) w1 in
  (w2, q).

Definition check (w : world) : world * nat := redisCheck w.

(** [q.resolve] and [q.reject]: a settled promise stays as it is. *)
Definition settle (q : nat) (s : promise) (w : world) : world :=
  match promises w !! q with
  | Some Pending => set_promises (<[q := s]> (promises w)) w
  | _ => w
  end.

(** The probe client's ['error'] listener. *)
Definition probe_error (a q : nat) (err : jsval) (w : world) : world :=
  settle q (Rejected err) (quit a w).

(** [self.VERSION_ARRAY[0] < 2]; on an empty array the operand is
    [undefined] and the comparison is false. *)
Definition major_below_2 (vs : list Z) : bool :=
  match vs with
  | v :: _ => (v <? 2)%Z
  | [] => false
  end.

(** The probe client's ['ready'] listener. *)
Definition probe_ready (a q : nat) (info : server_info) (w : world) : world :=
  let i := this w in
  let i1 := mkInstance (UID i) (DEBUG i) (HOST i) (PORT i) (MAX_CLIENTS i)
              (BLOCKING_SUPPORT i) (PERFORM_CHECKS i)
              (Some (versions info)) (Some (redis_version info)) (pool i) in
  let i2 :=
    if major_below_2 (versions info) then
      mkInstance (UID i1) (DEBUG i1) (HOST i1) (PORT i1) (MAX_CLIENTS i1)
        false (PERFORM_CHECKS i1) (VERSION_ARRAY i1) (VERSION_STRING i1) (pool i1)
    else i1 in
  settle q (Resolved (JStr (redis_version info))) (quit a (set_this i2 w)).

(* ---------------------------------------------------------------- *)
(** *** The event loop *)
(* ---------------------------------------------------------------- *)

Inductive method : Type :=
| M_on (type cb : jsval)
| M_expire (key data : jsval)
| M_set (key data cb : jsval)
| M_get (key cb : jsval)
| M_del (key : jsval)
| M_hset (key field data cb : jsval)
| M_hget (key field cb : jsval)
| M_hgetall (key cb : jsval)
| M_rpush (key data cb : jsval)
| M_lpush (key data cb : jsval)
| M_blpop (key cb : jsval)
| M_brpop (key cb : jsval)
| M_clean (key cb : jsval)
| M_check.

Definition call (m : method) (w : world) : world :=
  match m with
  | M_on type cb => on type cb w
  | M_expire key data => expire key data w
  | M_set key data cb => set key data cb w
  | M_get key cb => get key cb w
  | M_del key => del key w
  | M_hset key field data cb => hset key field data cb w
  | M_hget key field cb => hget key field cb w
  | M_hgetall key cb => hgetall key cb w
  | M_rpush key data cb => rpush key data cb w
  | M_lpush key data cb => lpush key data cb w
  | M_blpop key cb => blpop key cb w
  | M_brpop key cb => brpop key cb w
  | M_clean key cb => clean key cb w
  | M_check => fst (check w)
  end.

(** What the outside world does to an instance: a caller invokes a method,
    the store answers the [i]-th pending request, the [j]-th armed timer
    fires, a directly opened client emits ['error'] or ['ready'], a pooled
    client emits ['error'] (which the factory's listener only logs). *)
Inductive input : Type :=
| In_call (m : method)
| In_reply (i : nat) (err reply : jsval)
| In_timeout (j : nat)
| In_error (a : nat) (err : jsval)
| In_ready (a : nat) (info : server_info)
| In_pooled_error (c : conn) (err : jsval).

Definition step (i : input) (w : world) : world :=
  match i with
  | In_call m => call m w
  | In_reply i err reply =>
      match requests w !! i with
      | Some rq => fire (rq_handler rq) err reply (set_requests (delete i (requests w)) w)
      | None => w
      end
  | In_timeout j =>
      match timers w !! j with
      | Some (_, t) => fire_timer t (set_timers (delete j (timers w)) w)
      | None => w
      end
  | In_error a err =>
      match direct w !! a with
      | Some (mkDirect (Probe q) _) => probe_error a q err w
      | Some (mkDirect (Listener (JStr "error") cb) _) => invoke cb [err] w
      | Some _ => emit (E_uncaught "Unhandled 'error' event") w
      | None => w
      end
  | In_ready a info =>
      match direct w !! a with
      | Some (mkDirect (Probe q) _) => probe_ready a q info w
      | Some (mkDirect (Listener (JStr "ready") cb) _) => invoke cb [] w
      | _ => w
      end
  | In_pooled_error c err => emit (E_log "ERROR: " [err]) w
  end.

Definition run (ins : list input) (w : world) : world :=
  fold_left (fun w i => step i w) ins w.

(** The events added between two states. *)
Definition since (w w' : world) : list event :=
  drop (length (trace w)) (trace w').

(** The timers armed between two states. *)
Definition armed_since (w w' : world) : list (Z * timer) :=
  drop (length (timers w)) (timers w').

(** The calls of caller-supplied functions among some events. *)
Definition calls (es : list event) : list (fn_id * list jsval) :=
  omap (fun e => match e with E_call f args => Some (f, args) | _ => None end) es.

(** The exceptions nothing catches, among some events. *)
Definition uncaught (es : list event) : list string :=
  omap (fun e => match e with E_uncaught what => Some what | _ => None end) es.

(** The pooled connections on which a command was sent, among some events. *)
Definition sent_on (es : list event) : list conn :=
  omap (fun e => match e with E_send (Pooled c) _ _ => Some c | _ => None end) es.

(** The acquisitions requested from the pool, among some events. *)
Definition acquisitions (es : list event) : list acquirer :=
  omap (fun e => match e with E_acquire a => Some a | _ => None end) es.

(** The pool operations a handler or timer performed on connections. *)
Definition releases (es : list event) : list conn :=
  omap (fun e => match e with E_release c => Some c | _ => None end) es.

Definition destroys (es : list event) : list conn :=
  omap (fun e => match e with E_destroy c => Some c | _ => None end) es.

(** What serving an acquisition adds to the trace: nothing, or one command
    sent on the connection handed over. *)
Definition issue_only (c : conn) (es : list event) : Prop :=
  es = [] ∨ ∃ cmd args, es = [E_send (Pooled c) cmd args].

(** The capability flags of an instance. *)
Definition caps (i : Instance) : bool * option (list Z) * option string :=
  (BLOCKING_SUPPORT i, VERSION_ARRAY i, VERSION_STRING i).

(** [c0] is recorded as destroyed by a pool whose bookkeeping is sound. *)
Definition destroyed (c0 : conn) (w : world) : Prop :=
  Pool.wf (pool (this w)) ∧ c0 ∈ Pool.dead (pool (this w)).

(** From [w] to [w'] the trace only grows, and if [c0] was destroyed it
    stays so and no command is sent on it. *)
Definition safe (c0 : conn) (w w' : world) : Prop :=
  ∃ es : list event, trace w' = (trace w ++ es)%list ∧
        (destroyed c0 w → destroyed c0 w' ∧ c0 ∉ sent_on es).

(** ... and the capability flags are untouched. *)
Definition quiet (c0 : conn) (w w' : world) : Prop :=
  caps (this w') = caps (this w) ∧ safe c0 w w'.

(* ---------------------------------------------------------------- *)
(** *** Construction and the registry *)
(* ---------------------------------------------------------------- *)

(** The [cfg] object: each property as a value, [JUndefined] when absent. *)
Record config : Type := mkConfig {
  cfg_DEBUG : jsval;
  cfg_HOST : jsval;
  cfg_PORT : jsval;
  cfg_MAX_CLIENTS : jsval;
  cfg_PERFORM_CHECKS : jsval
}.

(** [{}] *)
Definition empty_config : config :=
  mkConfig JUndefined JUndefined JUndefined JUndefined JUndefined.

(** [new RedisConnectionPool(uid, cfg)].  [rnd] is the value of
    [Math.floor((Math.random() * 99999) + 10000)] when it is drawn. *)
Definition RedisConnectionPool (uid : jsval) (cfg : config) (rnd : N) : world :=
  let uid' := match uid with JStr s => s | _ => prototype_UID +:+ pretty rnd end in
  let debug := match cfg_DEBUG cfg with JBool b => b | _ => prototype_DEBUG end in
  let host := match cfg_HOST cfg with JStr s => s | _ => prototype_HOST end in
  let port := match cfg_PORT cfg with JNum n => n | _ => prototype_PORT end in
  let max_clients :=
    match cfg_MAX_CLIENTS cfg with JNum n => n | _ => prototype_MAX_CLIENTS end in
  let perform_checks :=
    match cfg_PERFORM_CHECKS cfg with JBool b => b | _ => prototype_PERFORM_CHECKS end in
  let self := mkInstance uid' debug host port max_clients prototype_BLOCKING_SUPPORT
                perform_checks None None (Pool.init max_clients) in
  let w0 := mkWorld self [] [] [] [] [] [] in
  let w1 := if DEBUG self then setTimeout T_poolStats 300000 w0 else w0 in
  fst (redisCheck w1).

(** Reading a data property of an instance by name, through the prototype
    chain; a name defined nowhere on it reads as [undefined].  Property
    names are case sensitive. *)
Definition Instance_get (name : string) (i : Instance) : jsval :=
  if name =? "UID" then JStr (UID i)
  else if name =? "DEBUG" then JBool (DEBUG i)
  else if name =? "HOST" then JStr (HOST i)
  else if name =? "PORT" then JNum (PORT i)
  else if name =? "MAX_CLIENTS" then JNum (MAX_CLIENTS i)
  else if name =? "BLOCKING_SUPPORT" then JBool (BLOCKING_SUPPORT i)
  else if name =? "PERFORM_CHECKS" then JBool (PERFORM_CHECKS i)
  else if name =? "VERSION_ARRAY" then
    from_option (fun vs => JArr (JNum <$> vs)) JUndefined (VERSION_ARRAY i)
  else if name =? "VERSION_STRING" then from_option JStr JUndefined (VERSION_STRING i)
  else JUndefined.

(** The process: the object [redisConnectionPools] of the wrapper's
    closure (its own properties, by key) and the instances constructed so
    far, by address. *)
Record process : Type := mkProcess {
  redisConnectionPools : gmap string nat;
  heap : list world
}.

Definition start : process := mkProcess ∅ [].

(** What a call hands back to its caller. *)
Inductive retval : Type :=
| V_instance (a : nat)
| V_object_prototype
| V_promise (a q : nat).

(** [redisConnectionPools[key]] when its [typeof] is ['object']: an own
    property holds an instance; of the properties inherited from
    [Object.prototype] only [__proto__] is an object, the others are
    functions. *)
Definition registered (key : string) (pr : process) : option retval :=
  match redisConnectionPools pr !! key with
  | Some a => Some (V_instance a)
  | None => if key =? "__proto__" then Some V_object_prototype else None
  end.

Definition RedisConnectionPoolWrapper (uid : jsval) (cfg : config) (rnd : N)
    (pr : process) : process * retval :=
  match registered (prop_key uid) pr with
  | Some v => (pr, v)
  | None =>
      let redisConnectionPool := RedisConnectionPool uid cfg rnd in
      let a := length (heap pr) in
      (mkProcess
         (<[prop_key (Instance_get "uid" (this redisConnectionPool)) := a]>
            (redisConnectionPools pr))
         (heap pr ++ [redisConnectionPool]),
       V_instance a)
  end.

(** An argument of the exported function, in the shapes its header
    documents: left out, a string, or a configuration object. *)
Inductive arg : Type :=
| Arg_undefined
| Arg_string (s : string)
| Arg_config (c : config).

Definition arg_typeof (x : arg) : string :=
  match x with
  | Arg_undefined => "undefined"
  | Arg_string _ => "string"
  | Arg_config _ => "object"
  end.

Definition arg_value (x : arg) : jsval :=
  match x with
  | Arg_string s => JStr s
  | _ => JUndefined
  end.

(** The five properties read from [cfg]; a string has none of them. *)
Definition arg_config (x : arg) : config :=
  match x with
  | Arg_config c => c
  | _ => empty_config
  end.

(** [module.exports] *)
Definition exports (uid cfg : arg) (rnd : N) (pr : process) : process * retval :=
  let '(uid, cfg) :=
    if arg_typeof uid =? "object" then (Arg_undefined, uid)
    else if arg_typeof cfg =? "undefined" then (uid, Arg_config empty_config)
    else (uid, cfg) in
  RedisConnectionPoolWrapper (arg_value uid) (arg_config cfg) rnd pr.

(** An input delivered to the instance at address [a]. *)
Definition deliver (a : nat) (i : input) (pr : process) : process :=
  match heap pr !! a with
  | Some w => mkProcess (redisConnectionPools pr) (<[a := step i w]> (heap pr))
  | None => pr
  end.

(** [instance.check()] on the instance at address [a]. *)
Definition check_at (a : nat) (pr : process) : process * option retval :=
  match heap pr !! a with
  | Some w =>
      let '(w', q) := check w in
      (mkProcess (redisConnectionPools pr) (<[a := w']> (heap pr)), Some (V_promise a q))
  | None => (pr, None)
  end.

(** A pool that can serve no acquisition now: nothing idle and no room
    for another connection. *)
Definition exhausted (w : world) : Prop :=
  Pool.idle (pool (this w)) = [] ∧ Pool.has_room (pool (this w)) = false.

(** What the loop of [clean] asks the pool for, and the events it leaves
    when the pool only queues the requests. *)
Definition deletions (names : list jsval) : list acquirer :=
  (fun name => A_single "del" name JUndefined) <$> names.

Definition deletion_events (names : list jsval) : list event :=
  names ≫= (fun name => [E_log "redis-connection-pool: deleting name " [name];
                          E_acquire (A_single "del" name JUndefined)]).

End RCP.

(* ================================================================== *)
(** ** Command families and sample states *)
(* ================================================================== *)

Module Samples.
Import RCP.

(** The command names [_setFuncs] is called with. *)
Definition write_like (funcName : string) : Prop :=
  funcName = "set" ∨ funcName = "hset" ∨ funcName = "rpush" ∨ funcName = "lpush".

Definition blocking_pop (funcName : string) : Prop :=
  funcName = "blpop" ∨ funcName = "brpop".

(** The methods [get] and [hgetall]. *)
Definition watched (m : method) : Prop :=
  (∃ key cb, m = M_get key cb) ∨ (∃ key cb, m = M_hgetall key cb).

(** A new instance with the default configuration, and the same with one
    command sent on connection 0. *)
Definition fresh : world := RedisConnectionPool (JStr "x") empty_config 0.
Definition set_in_flight : world := set (JStr "k") (JStr "v") (JFun 1) fresh.
Definition blpop_in_flight : world := blpop (JStr "q") (JFun 1) fresh.
Definition get_in_flight : world := get (JStr "k") (JFun 1) fresh.

(** Two configurations that differ in [MAX_CLIENTS]. *)
Definition cfgA : config := mkConfig JUndefined JUndefined JUndefined (JNum 5) JUndefined.
Definition cfgB : config := mkConfig JUndefined JUndefined JUndefined (JNum 10) JUndefined.

Definition redis_1_2 : server_info := mkInfo "1.2.6" [1; 2; 6]%Z.
Definition redis_2_6 : server_info := mkInfo "2.6.14" [2; 6; 14]%Z.

(** An instance limited to one connection, with that connection held by a
    BLPOP still waiting for an element, and a [clean] whose listing has not
    been answered yet. *)
Definition cfg_one : config := mkConfig JUndefined JUndefined JUndefined (JNum 1) JUndefined.

Definition pool_held : world :=
  run [In_call (M_blpop (JStr "q") (JFun 1)); In_call (M_clean (JStr "p:*") (JFun 2))]
      (RedisConnectionPool (JStr "x") cfg_one 0).

End Samples.

(* ================================================================== *)
(** ** Further observations on states and runs *)
(* ================================================================== *)

Module More.
Import RCP.

(** A run of calls of the exported function, each with its two arguments
    and the random number it would draw. *)
Definition exports_all (cs : list (arg * arg * N)) (pr : process) : process :=
  fold_left (fun pr c => (exports c.1.1 c.1.2 c.2 pr).1) cs pr.

(** What [console.log] printed, among some events. *)
Definition logs (es : list event) : list (string * list jsval) :=
  omap (fun e => match e with E_log text vals => Some (text, vals) | _ => None end) es.

(** The pooled connections that carry a command not yet answered. *)
Definition in_flight (w : world) : list conn :=
  omap (fun rq => match rq_client rq with Pooled c => Some c | Direct _ => None end)
       (requests w).

(** The client a reply callback closes over. *)
Definition handler_client (h : handler) : client_ref :=
  match h with
  | H_single client => Pooled client
  | H_set _ client _ => Pooled client
  | H_get _ client _ _ _ => Pooled client
  | H_hashget client _ _ => Pooled client
  | H_blocking _ client _ _ => Pooled client
  | H_keys a _ _ => Direct a
  end.

(** The bookkeeping of connections, pool and pending commands together: no
    connection carries two unanswered commands, none that carries one is
    idle, idle and checked-out connections are distinct, every connection
    known was created by the factory, and every reply callback closes over
    the client its command was sent on. *)
Definition exclusive (w : world) : Prop :=
  let p := pool (this w) in
  NoDup (in_flight w)
  ∧ NoDup (Pool.idle p)
  ∧ (∀ c, c ∈ Pool.idle p → c ∉ Pool.busy p)
  ∧ (∀ c, c ∈ in_flight w → c ∉ Pool.idle p)
  ∧ (∀ c, c ∈ in_flight w → c < Pool.created p)
  ∧ (∀ c, c ∈ Pool.idle p → c < Pool.created p)
  ∧ (∀ c, c ∈ Pool.busy p → c < Pool.created p)
  ∧ (∀ rq, rq ∈ requests w → rq_client rq = handler_client (rq_handler rq)).

(** Every armed watchdog whose [responded] variable is still false belongs
    to a GET or HGETALL that is still unanswered, and the variables of
    pending reads exist. *)
Definition watchdogs_live (w : world) : Prop :=
  (∀ ms funcName key client r,
     (ms, T_watchdog funcName key client r) ∈ timers w →
     responded w !! r = Some false →
     ∃ cb, mkRequest (Pooled client) funcName [key] (H_get funcName client key cb r)
             ∈ requests w)
  ∧ (∀ ms funcName key client r,
       (ms, T_watchdog funcName key client r) ∈ timers w → r < length (responded w)).

(** A listening client opened by [on] has never been closed, and every
    pending key listing belongs to a client opened by [clean]. *)
Definition listeners_open (w : world) : Prop :=
  (∀ a type cb n, direct w !! a = Some (mkDirect (Listener type cb) n) → n = 0)
  ∧ (∀ rq a key cb, rq ∈ requests w → rq_handler rq = H_keys a key cb →
       ∃ n, direct w !! a = Some (mkDirect Cleaner n)).

(** The instance with its capability properties replaced. *)
Definition with_caps (k : bool * option (list Z) * option string) (w : world) : world :=
  let i := this w in
  set_this (mkInstance (UID i) (DEBUG i) (HOST i) (PORT i) (MAX_CLIENTS i)
              k.1.1 (PERFORM_CHECKS i) k.1.2 k.2 (pool i)) w.

(** Sample inputs. *)
Definition cfg_debug : config :=
  mkConfig (JBool true) JUndefined JUndefined JUndefined JUndefined.
Definition two_calls : list (arg * arg * N) :=
  [(Arg_string "a", Arg_undefined, 0%N); (Arg_string "b", Arg_undefined, 0%N)].

(** The reply callbacks of the read-like commands, for a client and a
    continuation. *)
Definition read_handler (client : conn) (cb : jsval) (h : handler) : Prop :=
  (∃ funcName key r, h = H_get funcName client key cb r)
  ∨ (∃ key, h = H_hashget client key cb)
  ∨ (∃ funcName r, h = H_blocking funcName client cb r).

(** The command names [_getFuncs] dispatches on. *)
Definition read_like (funcName : string) : Prop :=
  funcName = "get" ∨ funcName = "hgetall" ∨ funcName = "hget"
  ∨ funcName = "blpop" ∨ funcName = "brpop".

(** What [cb(args)] leaves in the trace. *)
Definition invoked (cb : jsval) (args : list jsval) : event :=
  match cb with
  | JFun f => E_call f args
  | _ => E_uncaught "TypeError: cb is not a function"
  end.

(** The shape the wrapper keeps: nothing filed while nothing was
    constructed, and afterwards the single key ["undefined"], bound to the
    instance constructed last. *)
Definition filed (pr : process) : Prop :=
  redisConnectionPools pr
    = match heap pr with
      | [] => ∅
      | _ :: _ => {["undefined" := length (heap pr) - 1]}
      end.

(** The part of [exclusive] that concerns the pool and the connections in
    flight. *)
Definition tidy (p : Pool.t acquirer) (fl : list conn) : Prop :=
  NoDup fl
  ∧ NoDup (Pool.idle p)
  ∧ (∀ c, c ∈ Pool.idle p → c ∉ Pool.busy p)
  ∧ (∀ c, c ∈ fl → c ∉ Pool.idle p)
  ∧ (∀ c, c ∈ fl → c < Pool.created p)
  ∧ (∀ c, c ∈ Pool.idle p → c < Pool.created p)
  ∧ (∀ c, c ∈ Pool.busy p → c < Pool.created p).

Definition consistent (rqs : list request) : Prop :=
  ∀ rq, rq ∈ rqs → rq_client rq = handler_client (rq_handler rq).

(** What an operation of the pool may dispense: the bookkeeping stays tidy
    whether or not a command is then sent on the connection. *)
Definition dispenses_tidily (r : Pool.t acquirer * option (acquirer * conn))
    (fl : list conn) : Prop :=
  tidy r.1 fl ∧ ∀ a c, r.2 = Some (a, c) → tidy r.1 (fl ++ [c]).

(** A reply callback other than the one of [clean]. *)
Definition not_keys (h : handler) : Prop := ∀ a key cb, h ≠ H_keys a key cb.


(** A run that leaves one GET unanswered, and a run that opens a listener
    and then serves one [clean] to its end. *)
Definition one_get : list input := [In_call (M_get (JStr "k") (JFun 1))].

Definition listen_then_clean : list input :=
  [In_call (M_on (JStr "message") (JFun 1));
   In_call (M_clean (JStr "p:*") (JFun 2));
   In_reply 0 JNull (JArr [])].

End More.

(* ================================================================== *)
(** ** Facts about the pool *)
(* ================================================================== *)

Module PoolFacts.
Section WithWaiter.

Context {W : Type}.
Implicit Types (p : Pool.t W) (c : conn) (w : W).

Lemma elem_of_without c x (l : list conn) :
  x ∈ Pool.without c l ↔ x ∈ l ∧ x ≠ c.
Proof. unfold Pool.without. rewrite list_elem_of_filter. tauto. Qed.

Lemma wf_init m : Pool.wf (Pool.init (W := W) m).
Proof. unfold Pool.wf. simpl. setoid_rewrite elem_of_nil. naive_solver. Qed.

(** Membership in the lists an operation builds, in terms of the lists it
    started from. *)
Ltac members :=
  repeat first
    [ setoid_rewrite elem_of_app
    | setoid_rewrite list_elem_of_singleton
    | setoid_rewrite elem_of_without
    | setoid_rewrite elem_of_cons
    | setoid_rewrite elem_of_nil ].

Lemma create_wf p :
  Pool.wf p → Pool.wf (Pool.create p).1 ∧ Pool.dead (Pool.create p).1 = Pool.dead p.
Proof.
  unfold Pool.wf. simpl. intros (Hi & Hb & Hd & Hx). members.
  split; [|done]. split_and!; intros x; specialize (Hi x); specialize (Hb x);
    specialize (Hd x); specialize (Hx x); intuition (subst; lia).
Qed.

Lemma acquire_keeps c0 w p :
  Pool.wf p → c0 ∈ Pool.dead p → Pool.keeps c0 (Pool.acquire w p).
Proof.
  intros Hwf Hdead. unfold Pool.acquire.
  destruct (Pool.idle p) as [|c rest] eqn:Hidle.
  - destruct (Pool.has_room p).
    + destruct (create_wf p Hwf) as [Hwf' Hdead'].
      unfold Pool.keeps. simpl. split; [exact Hwf'|]. split; [done|].
      intros w' c' [= _ <-] Heq. destruct Hwf as (_ & _ & Hd & _).
      apply Hd in Hdead. lia.
    + unfold Pool.keeps. simpl. split; [|split; [done|discriminate]].
      revert Hwf. unfold Pool.wf. simpl. by rewrite Hidle.
  - unfold Pool.keeps. simpl. revert Hwf Hdead. unfold Pool.wf. simpl.
    rewrite Hidle. members. intros (Hi & Hb & Hd & Hx) Hdead.
    split; [|split; [done|]].
    + split_and!; intros x; pose proof (Hi c); pose proof (Hx c);
        specialize (Hi x); specialize (Hb x); specialize (Hd x); specialize (Hx x);
        intuition (subst; eauto).
    + intros w' c' [= _ <-] ->. specialize (Hx c0). intuition.
Qed.

Lemma release_keeps c0 c p :
  Pool.wf p → c0 ∈ Pool.dead p → Pool.keeps c0 (Pool.release c p).
Proof.
  intros Hwf Hdead. unfold Pool.release. case_bool_decide as Hbusy;
    [|unfold Pool.keeps; simpl; split; [done|]; split; [done|discriminate]].
  destruct (Pool.waiting p) as [|w ws]; unfold Pool.keeps; simpl.
  - split; [|split; [done|discriminate]].
    revert Hwf. unfold Pool.wf. simpl. members. intros (Hi & Hb & Hd & Hx).
    split_and!; intros x; specialize (Hi x); specialize (Hb x);
      specialize (Hd x); specialize (Hx x); intuition (subst; eauto).
  - split; [done|]. split; [done|].
    intros w' c' [= _ <-] ->. destruct Hwf as (_ & _ & _ & Hx).
    specialize (Hx c0). intuition.
Qed.

Lemma destroy_wf c p : Pool.wf p → Pool.wf (Pool.destroy c p).1.
Proof.
  intros Hwf. unfold Pool.destroy. case_bool_decide as Htracked; [|done].
  cbv zeta.
  set (p1 := Pool.mk (Pool.max p) (Pool.created p) _ _ (c :: Pool.dead p) _).
  assert (Hwf1 : Pool.wf p1).
  { revert Hwf. unfold Pool.wf. simpl. members. intros (Hi & Hb & Hd & Hx).
    split_and!; intros x; specialize (Hi x); specialize (Hb x);
      specialize (Hd x); specialize (Hx x); intuition (subst; eauto). }
  destruct (Pool.waiting p1) as [|w ws]; [done|].
  destruct (Pool.has_room p1); [|done].
  by destruct (create_wf p1 Hwf1) as [Hwf2 _].
Qed.

Lemma destroy_dead c0 c p : c0 ∈ Pool.dead p → c0 ∈ Pool.dead (Pool.destroy c p).1.
Proof.
  intros Hdead. unfold Pool.destroy. case_bool_decide; [|done]. cbv zeta.
  simpl Pool.waiting. destruct (Pool.waiting p); [simpl; by right|].
  destruct (Pool.has_room _); simpl; by right.
Qed.

Lemma destroy_keeps c0 c p :
  Pool.wf p → c0 ∈ Pool.dead p → Pool.keeps c0 (Pool.destroy c p).
Proof.
  intros Hwf Hdead. split; [by apply destroy_wf|]. split; [by apply destroy_dead|].
  pose proof Hwf as (_ & _ & Hd & _). apply Hd in Hdead.
  unfold Pool.destroy. case_bool_decide; [|discriminate]. cbv zeta.
  simpl Pool.waiting. destruct (Pool.waiting p); [discriminate|].
  destruct (Pool.has_room _); [|discriminate].
  simpl. intros w' c' [= _ <-]. lia.
Qed.

(** The number of tracked connections never exceeds the bound. *)
Lemma acquire_bounded w p : Pool.bounded p → Pool.bounded (Pool.acquire w p).1.
Proof.
  unfold Pool.bounded, Pool.acquire, Pool.size. intros Hb.
  destruct (Pool.idle p) as [|c rest] eqn:Hidle; simpl.
  - destruct (Pool.has_room p) eqn:Hroom; simpl.
    + unfold Pool.has_room, Pool.size in Hroom. apply Z.ltb_lt in Hroom.
      rewrite length_app. simpl. lia.
    + rewrite ?Hidle. simpl in *. lia.
  - simpl in Hb. rewrite length_app. simpl. lia.
Qed.

Lemma release_bounded c p : Pool.bounded p → Pool.bounded (Pool.release c p).1.
Proof.
  unfold Pool.bounded, Pool.release, Pool.size. intros Hb.
  case_bool_decide as Hbusy; [|done].
  destruct (Pool.waiting p); simpl; [|done].
  rewrite length_app. simpl.
  assert (S (length (Pool.without c (Pool.busy p))) ≤ length (Pool.busy p))%nat; [|lia].
  unfold Pool.without. clear Hb. induction (Pool.busy p) as [|x l IH]; simpl.
  - by apply elem_of_nil in Hbusy.
  - rewrite filter_cons. destruct (decide (x ≠ c)) as [Hne | Heq]; simpl.
    + apply elem_of_cons in Hbusy as [-> | Hl]; [done|]. specialize (IH Hl). lia.
    + pose proof (length_filter (fun y => y ≠ c) l). lia.
Qed.

Lemma destroy_bounded c p : Pool.bounded p → Pool.bounded (Pool.destroy c p).1.
Proof.
  unfold Pool.bounded, Pool.destroy. intros Hb.
  case_bool_decide; [|done]. cbv zeta. simpl Pool.waiting.
  set (p1 := Pool.mk _ _ _ _ _ _).
  assert (Hb1 : (Z.of_nat (Pool.size p1) ≤ Pool.max p)%Z).
  { unfold Pool.size in *. simpl.
    pose proof (length_filter (fun y => y ≠ c) (Pool.idle p)).
    pose proof (length_filter (fun y => y ≠ c) (Pool.busy p)).
    unfold Pool.without. lia. }
  destruct (Pool.waiting p); [done|].
  destruct (Pool.has_room p1) eqn:Hroom; [|done].
  unfold Pool.has_room in Hroom. apply Z.ltb_lt in Hroom.
  unfold Pool.size in *. simpl in *. rewrite length_app. simpl. lia.
Qed.

(** Releasing a destroyed connection changes nothing. *)
Lemma release_dead c p :
  Pool.wf p → c ∈ Pool.dead p → Pool.release c p = (p, None).
Proof.
  intros (_ & _ & _ & Hx) Hdead. unfold Pool.release.
  case_bool_decide as Hbusy; [|done]. by apply Hx in Hdead as [_ Hnb].
Qed.

(** Destroying a connection that is checked out records it as destroyed. *)
Lemma destroy_busy c p :
  c ∈ Pool.busy p → c ∈ Pool.dead (Pool.destroy c p).1.
Proof.
  intros Hbusy. unfold Pool.destroy.
  rewrite bool_decide_eq_true_2; [|by right].
  cbv zeta. simpl Pool.waiting.
  destruct (Pool.waiting p); [simpl; by left|].
  destruct (Pool.has_room _); simpl; by left.
Qed.

End WithWaiter.
End PoolFacts.

(* ================================================================== *)
(** ** Facts about the instance *)
(* ================================================================== *)

Module Props.
Import RCP Samples.

Section Extractors.
Lemma calls_app es1 es2 : calls (es1 ++ es2) = (calls es1 ++ calls es2)%list.
Proof. apply omap_app. Qed.
Lemma uncaught_app es1 es2 : uncaught (es1 ++ es2) = (uncaught es1 ++ uncaught es2)%list.
Proof. apply omap_app. Qed.
Lemma sent_on_app es1 es2 : sent_on (es1 ++ es2) = (sent_on es1 ++ sent_on es2)%list.
Proof. apply omap_app. Qed.
Lemma acquisitions_app es1 es2 :
  acquisitions (es1 ++ es2) = (acquisitions es1 ++ acquisitions es2)%list.
Proof. apply omap_app. Qed.
Lemma releases_app es1 es2 : releases (es1 ++ es2) = (releases es1 ++ releases es2)%list.
Proof. apply omap_app. Qed.
Lemma destroys_app es1 es2 : destroys (es1 ++ es2) = (destroys es1 ++ destroys es2)%list.
Proof. apply omap_app. Qed.

Lemma since_app w w' es : trace w' = (trace w ++ es)%list → since w w' = es.
Proof. intros H. unfold since. rewrite H. apply drop_app_length. Qed.

Lemma issue_only_calls c es : issue_only c es → calls es = [].
Proof. by intros [-> | (cmd & args & ->)]. Qed.
Lemma issue_only_uncaught c es : issue_only c es → uncaught es = [].
Proof. by intros [-> | (cmd & args & ->)]. Qed.
Lemma issue_only_acquisitions c es : issue_only c es → acquisitions es = [].
Proof. by intros [-> | (cmd & args & ->)]. Qed.
Lemma issue_only_releases c es : issue_only c es → releases es = [].
Proof. by intros [-> | (cmd & args & ->)]. Qed.
Lemma issue_only_destroys c es : issue_only c es → destroys es = [].
Proof. by intros [-> | (cmd & args & ->)]. Qed.
Lemma issue_only_sent_on c c0 es : issue_only c es → c ≠ c0 → c0 ∉ sent_on es.
Proof.
  intros [-> | (cmd & args & ->)] Hne; simpl.
  - apply not_elem_of_nil.
  - rewrite list_elem_of_singleton. congruence.
Qed.
End Extractors.

(** Serving an acquisition leaves the instance as it is and sends at most
    one command, on the connection handed over. *)
Lemma acquired_frame a c w :
  this (acquired a c w) = this w ∧
  promises (acquired a c w) = promises w ∧
  direct (acquired a c w) = direct w ∧
  ∃ es, trace (acquired a c w) = (trace w ++ es)%list ∧ issue_only c es.
Proof.
  unfold issue_only.
  destruct a as [fn key val | fn key field data cb | fn key field cb]; simpl.
  - destruct (truthy val); simpl; eauto 10.
  - repeat case_match; simpl; eauto 10.
  - unfold redisGet, redisBlockingGet, redisHashGet.
    repeat case_match; simpl; eauto 10.
    repeat split; auto. exists []. rewrite app_nil_r. auto.
Qed.

(** What a pool operation of the instance does, given the pool's answer. *)
Lemma dispense_frame p d e w :
  let w' := resume d (set_pool p (emit e w)) in
  pool (this w') = p ∧ caps (this w') = caps (this w) ∧
  promises w' = promises w ∧ direct w' = direct w ∧
  ∃ es, trace w' = (trace w ++ e :: es)%list ∧
        match d with Some (_, c) => issue_only c es | None => es = [] end.
Proof.
  destruct d as [[a c]|]; simpl.
  - destruct (acquired_frame a c (set_pool p (emit e w))) as (Ht & Hp & Hd & es & Htr & Hes).
    rewrite Ht, Hp, Hd, Htr. simpl. repeat split; auto.
    exists es. by rewrite <- app_assoc.
  - repeat split; auto. by exists [].
Qed.

Lemma pool_acquire_frame a w :
  let r := Pool.acquire a (pool (this w)) in
  let w' := pool_acquire a w in
  pool (this w') = r.1 ∧ caps (this w') = caps (this w) ∧
  promises w' = promises w ∧ direct w' = direct w ∧
  ∃ es, trace w' = (trace w ++ E_acquire a :: es)%list ∧
        match r.2 with Some (_, c) => issue_only c es | None => es = [] end.
Proof.
  unfold pool_acquire. destruct (Pool.acquire a (pool (this w))) as [p d].
  apply dispense_frame.
Qed.

Lemma pool_release_frame client w :
  let r := Pool.release client (pool (this w)) in
  let w' := pool_release client w in
  pool (this w') = r.1 ∧ caps (this w') = caps (this w) ∧
  promises w' = promises w ∧ direct w' = direct w ∧
  ∃ es, trace w' = (trace w ++ E_release client :: es)%list ∧
        match r.2 with Some (_, c) => issue_only c es | None => es = [] end.
Proof.
  unfold pool_release. destruct (Pool.release client (pool (this w))) as [p d].
  apply dispense_frame.
Qed.

Lemma pool_destroy_frame client w :
  let r := Pool.destroy client (pool (this w)) in
  let w' := pool_destroy client w in
  pool (this w') = r.1 ∧ caps (this w') = caps (this w) ∧
  promises w' = promises w ∧ direct w' = direct w ∧
  ∃ es, trace w' = (trace w ++ E_destroy client :: es)%list ∧
        match r.2 with Some (_, c) => issue_only c es | None => es = [] end.
Proof.
  unfold pool_destroy. destruct (Pool.destroy client (pool (this w))) as [p d].
  apply dispense_frame.
Qed.

Section Frame.

(** A connection, fixed throughout: the one the watchdog destroyed. *)
Variable c0 : conn.

#[local] Instance safe_preorder : PreOrder (safe c0).
Proof.
  split.
  - intros w. exists []. rewrite app_nil_r. split; [done|].
    intros H. split; [done|]. apply not_elem_of_nil.
  - intros w1 w2 w3 (es1 & H1 & K1) (es2 & H2 & K2). exists (es1 ++ es2)%list.
    rewrite H2, H1, app_assoc. split; [done|].
    intros J1. destruct (K1 J1) as [J2 N1]. destruct (K2 J2) as [J3 N2].
    split; [done|]. rewrite sent_on_app, elem_of_app. tauto.
Qed.

#[local] Instance quiet_preorder : PreOrder (quiet c0).
Proof.
  split.
  - intros w. split; reflexivity.
  - intros w1 w2 w3 [C1 S1] [C2 S2]. split; [congruence | by etransitivity].
Qed.

Lemma safe_same w w' :
  pool (this w') = pool (this w) → trace w' = trace w → safe c0 w w'.
Proof.
  intros Hp Ht. exists []. rewrite app_nil_r. split; [done|].
  unfold destroyed. rewrite Hp. split; [done | apply not_elem_of_nil].
Qed.

Lemma quiet_same w w' : this w' = this w → trace w' = trace w → quiet c0 w w'.
Proof. intros Hi Ht. split; [by rewrite Hi | apply safe_same; by rewrite ?Hi]. Qed.

Lemma quiet_emit e w : sent_on [e] = [] → quiet c0 w (emit e w).
Proof.
  intros He. split; [done|]. exists [e]. split; [done|].
  intros J. split; [exact J|]. rewrite He. apply not_elem_of_nil.
Qed.

Lemma quiet_invoke cb args w : quiet c0 w (invoke cb args w).
Proof. destruct cb; apply quiet_emit; reflexivity. Qed.

Lemma quiet_send_direct a cmd args h w : quiet c0 w (send (Direct a) cmd args h w).
Proof.
  split; [done|]. exists [E_send (Direct a) cmd args]. split; [done|].
  intros J. split; [exact J | apply not_elem_of_nil].
Qed.

Lemma quiet_quit a w : quiet c0 w (quit a w).
Proof. unfold quit. destruct (direct w !! a); by apply quiet_same. Qed.

Lemma quiet_settle q s w : quiet c0 w (settle q s w).
Proof. unfold settle. destruct (promises w !! q) as [[]|]; by apply quiet_same. Qed.

(** The pool operations: what they dispense is not the destroyed
    connection. *)
Lemma quiet_dispensed r w w' e :
  (∀ c, Pool.wf (pool (this w)) → c ∈ Pool.dead (pool (this w)) → Pool.keeps c r) →
  pool (this w') = r.1 →
  caps (this w') = caps (this w) →
  (∃ es, trace w' = (trace w ++ e :: es)%list ∧
         match r.2 with Some (_, c) => issue_only c es | None => es = [] end) →
  sent_on [e] = [] →
  quiet c0 w w'.
Proof.
  intros Hkeeps Hp Hc (es & Htr & Hes) He. split; [done|].
  exists (e :: es). split; [done|]. intros [Hwf Hdead].
  destruct (Hkeeps c0 Hwf Hdead) as (Hwf' & Hdead' & Hne).
  unfold destroyed. rewrite Hp. split; [done|].
  change (e :: es) with ([e] ++ es)%list. rewrite sent_on_app, He. simpl.
  destruct r.2 as [[a c]|].
  - eapply issue_only_sent_on; eauto.
  - subst es. apply not_elem_of_nil.
Qed.

Lemma quiet_pool_acquire a w : quiet c0 w (pool_acquire a w).
Proof.
  destruct (pool_acquire_frame a w) as (Hp & Hc & _ & _ & Htr).
  eapply quiet_dispensed; eauto. intros c. apply PoolFacts.acquire_keeps.
Qed.

Lemma quiet_pool_release c w : quiet c0 w (pool_release c w).
Proof.
  destruct (pool_release_frame c w) as (Hp & Hc & _ & _ & Htr).
  eapply quiet_dispensed; eauto. intros c'. apply PoolFacts.release_keeps.
Qed.

Lemma quiet_pool_destroy c w : quiet c0 w (pool_destroy c w).
Proof.
  destruct (pool_destroy_frame c w) as (Hp & Hc & _ & _ & Htr).
  eapply quiet_dispensed; eauto. intros c'. apply PoolFacts.destroy_keeps.
Qed.

(** Chaining the steps of a function body, last statement first. *)
Ltac quiet_chain :=
  repeat match goal with
    | |- quiet _ ?w ?w => reflexivity
    | |- quiet _ _ (if ?b then _ else _) => destruct b
    | |- quiet _ _ (match ?x with _ => _ end) => destruct x eqn:?
    | |- quiet _ _ (pool_acquire _ ?v) => transitivity v; [| apply quiet_pool_acquire]
    | |- quiet _ _ (pool_release _ ?v) => transitivity v; [| apply quiet_pool_release]
    | |- quiet _ _ (pool_destroy _ ?v) => transitivity v; [| apply quiet_pool_destroy]
    | |- quiet _ _ (invoke _ _ ?v) => transitivity v; [| apply quiet_invoke]
    | |- quiet _ _ (send (Direct _) _ _ _ ?v) =>
        transitivity v; [| apply quiet_send_direct]
    | |- quiet _ _ (quit _ ?v) => transitivity v; [| apply quiet_quit]
    | |- quiet _ _ (settle _ _ ?v) => transitivity v; [| apply quiet_settle]
    | |- quiet _ _ (emit _ ?v) => transitivity v; [| apply quiet_emit; reflexivity]
    | |- quiet _ _ (set_responded _ ?v) => transitivity v; [| by apply quiet_same]
    | |- quiet _ _ (set_requests _ ?v) => transitivity v; [| by apply quiet_same]
    | |- quiet _ _ (set_timers _ ?v) => transitivity v; [| by apply quiet_same]
    | |- quiet _ _ (set_direct _ ?v) => transitivity v; [| by apply quiet_same]
    | |- quiet _ _ (set_promises _ ?v) => transitivity v; [| by apply quiet_same]
    end.

Lemma quiet_delete_each names w : quiet c0 w (delete_each names w).
Proof.
  revert w. induction names as [|name names IH]; intros w; [reflexivity|].
  simpl. etransitivity; [|apply IH]. unfold del, redisSingle. quiet_chain.
Qed.

Lemma quiet_fire h err reply w : quiet c0 w (fire h err reply w).
Proof.
  destruct h; unfold fire, mark_responded; try (progress quiet_chain; fail).
  cbv zeta. destruct (truthy reply); [destruct (forEach_of reply)|]; quiet_chain.
  all: transitivity (quit a w); [quiet_chain | apply quiet_delete_each].
Qed.

Lemma quiet_fire_timer t w : quiet c0 w (fire_timer t w).
Proof. destruct t; unfold fire_timer; quiet_chain. Qed.

Lemma quiet_call m w : quiet c0 w (call m w).
Proof.
  destruct m; unfold call, on, expire, set, get, del, hset, hget, hgetall, rpush,
    lpush, blpop, brpop, clean, check, redisCheck, redisSingle, _setFuncs, _getFuncs,
    createClient; simpl; quiet_chain.
Qed.

(** Every input but a probe's ['ready'] leaves the capability flags alone. *)
Lemma quiet_step i w : (∀ a info, i ≠ In_ready a info) → quiet c0 w (step i w).
Proof.
  intros Hi. destruct i as [m | i err reply | j | a err | a info | c err]; simpl.
  - apply quiet_call.
  - destruct (requests w !! i); [|reflexivity].
    etransitivity; [|apply quiet_fire]. by apply quiet_same.
  - destruct (timers w !! j) as [[ms t]|]; [|reflexivity].
    etransitivity; [|apply quiet_fire_timer]. by apply quiet_same.
  - unfold probe_error. quiet_chain.
  - by destruct (Hi a info).
  - by apply quiet_emit.
Qed.

Lemma safe_step i w : safe c0 w (step i w).
Proof.
  destruct i as [m | i err reply | j | a err | a info | c err];
    try (apply quiet_step; discriminate).
  simpl. unfold probe_ready. repeat case_match; try reflexivity.
  - etransitivity; [|apply quiet_settle]. etransitivity; [|apply quiet_quit].
    by apply safe_same.
  - etransitivity; [|apply quiet_settle]. etransitivity; [|apply quiet_quit].
    by apply safe_same.
  - apply quiet_invoke.
Qed.

Lemma safe_run ins w : safe c0 w (run ins w).
Proof.
  revert w. induction ins as [|i ins IH]; intros w; [reflexivity|].
  simpl. etransitivity; [apply safe_step | apply IH].
Qed.

End Frame.

(* ------------------------------------------------------------------ *)
(** ** Argument shapes *)
(* ------------------------------------------------------------------ *)

(** C9.  When [field] is left out and the continuation sits in its place,
    [_setFuncs] (by arity) and [_getFuncs] (by type and arity) move the
    continuation to [cb] and set [field] to [null]: the acquisition they
    request is the one the explicit form with a [null] field requests, with
    the same command name, key, payload and continuation. *)
Theorem omitted_field_is_null_field funcName key data f w :
  _setFuncs funcName key data (JFun f) JUndefined w
    = pool_acquire (A_set funcName key JNull data (JFun f)) w
  ∧ _setFuncs funcName key JNull data (JFun f) w
    = pool_acquire (A_set funcName key JNull data (JFun f)) w
  ∧ _getFuncs funcName key (JFun f) JUndefined w
    = pool_acquire (A_get funcName key JNull (JFun f)) w
  ∧ _getFuncs funcName key JNull (JFun f) w
    = pool_acquire (A_get funcName key JNull (JFun f)) w
  ∧ hset key data (JFun f) JUndefined w = hset key JNull data (JFun f) w
  ∧ hget key (JFun f) JUndefined w = hget key JNull (JFun f) w.
Proof. repeat split. Qed.

Lemma falsy_not_function v : truthy v = false → (typeof v =? "function") = false.
Proof. by destruct v. Qed.

(** What a reply callback adds after it has released its connection. *)
Lemma released_then client w :
  ∃ es, trace (pool_release client w) = (trace w ++ E_release client :: es)%list ∧
        calls es = [] ∧ uncaught es = [] ∧ acquisitions es = [] ∧
        releases es = [] ∧ destroys es = [].
Proof.
  destruct (pool_release_frame client w) as (_ & _ & _ & _ & es & Htr & Hes).
  exists es. split; [done|].
  destruct (Pool.release client (pool (this w))).2 as [[a c]|].
  - split_and!; eauto using issue_only_calls, issue_only_uncaught,
      issue_only_acquisitions, issue_only_releases, issue_only_destroys.
  - by subst es.
Qed.

(** C10.  [hget] tests the truthiness of [field]: with a falsy field that is
    not a function, and a continuation, the command sent is HGETALL on the
    key (with no timer armed) and the continuation receives its reply, the
    whole hash. *)
Theorem hget_falsy_field_sends_hgetall key field f client err reply w w1 :
  truthy field = false →
  hget key field (JFun f) w = pool_acquire (A_get "hget" key field (JFun f)) w
  ∧ acquired (A_get "hget" key field (JFun f)) client w1
    = send (Pooled client) "hgetall" [key] (H_hashget client key (JFun f)) w1
  ∧ armed_since w1 (acquired (A_get "hget" key field (JFun f)) client w1) = []
  ∧ (truthy err = false →
     calls (since w1 (fire (H_hashget client key (JFun f)) err reply w1))
       = [(f, [err; reply])]).
Proof.
  intros Hfalsy. split; [|split; [|split]].
  - unfold hget, _getFuncs. by rewrite (falsy_not_function _ Hfalsy).
  - simpl. unfold redisHashGet. by rewrite Hfalsy.
  - simpl. unfold redisHashGet, armed_since. rewrite Hfalsy. simpl. apply drop_all.
  - intros Herr. simpl. rewrite Herr.
    destruct (released_then client w1) as (es & Htr & Hc & _).
    erewrite since_app; [|simpl; rewrite Htr, <- app_assoc; reflexivity].
    simpl. change (E_release client :: es ++ ?l)%list with ([E_release client] ++ es ++ l)%list.
    by rewrite !calls_app, Hc.
Qed.

Lemma hget_falsy_field_sends_hgetall_witness :
  truthy (JStr "") = false
  ∧ acquired (A_get "hget" (JStr "h") (JStr "") (JFun 1)) 0 fresh
    = send (Pooled 0) "hgetall" [JStr "h"] (H_hashget 0 (JStr "h") (JFun 1)) fresh.
Proof.
  split; [reflexivity|].
  apply (hget_falsy_field_sends_hgetall (JStr "h") (JStr "") 1 0 JNull JNull fresh fresh).
  reflexivity.
Defined.

(** The events of a reply callback: the release, whatever the pool then
    starts for a waiter, and the events [tail] of the statements after. *)
Lemma since_release client w0 w :
  trace w0 = trace w →
  ∃ es, calls es = [] ∧ uncaught es = [] ∧ acquisitions es = [] ∧
        releases es = [] ∧ destroys es = [] ∧
        ∀ (k : world → world) tail,
          (∀ v, trace (k v) = (trace v ++ tail)%list) →
          since w (k (pool_release client w0)) = (E_release client :: es ++ tail)%list.
Proof.
  intros Heq. destruct (released_then client w0) as (es & Htr & H1 & H2 & H3 & H4 & H5).
  exists es. split_and!; try done. intros k tail Hk.
  apply since_app. rewrite Hk, Htr, Heq, <- app_assoc. reflexivity.
Qed.

(** Reads the statements after the release off the goal and applies the
    lemma above. *)
Ltac after_release Hk :=
  lazymatch goal with
  | |- since _ ?t = _ =>
      lazymatch t with
      | context C [pool_release ?c ?w0] =>
          let k := constr:(fun v : world => ltac:(let t' := context C [v] in exact t')) in
          apply (Hk k); intros ?; simpl;
          first [ symmetry; apply app_nil_r
                | reflexivity
                | rewrite <- app_assoc; reflexivity ]
      end
  end.

Ltac rewrite_release Hk :=
  lazymatch goal with
  | |- context [since ?w ?t] =>
      let E := fresh in
      eassert (E : since w t = _) by after_release Hk;
      rewrite !E; clear E
  end.

(* ------------------------------------------------------------------ *)
(** ** Write-like commands *)
(* ------------------------------------------------------------------ *)

(** C7, as the code has it.  For SET, HSET, RPUSH and LPUSH the reply
    callback first releases the connection, whatever the reply; then the
    continuation, when it is a function, is called exactly once, with the
    error and the reply exactly as the redis client passed them (the reply
    is not replaced by [null] on an error); nothing is thrown and no new
    acquisition, hence no retry, is requested. *)
Theorem write_reply_released_then_passed_on
    funcName key field data cb client err reply w w1 :
  write_like funcName →
  let w' := fire (H_set funcName client cb) err reply w1 in
  requests (acquired (A_set funcName key field data cb) client w)
    = (requests w ++
       [mkRequest (Pooled client) funcName
          (if funcName =? "hset" then [key; field; data] else [key; data])
          (H_set funcName client cb)])%list
  ∧ pool (this w') = (Pool.release client (pool (this w1))).1
  ∧ ∃ es, since w1 w' = E_release client :: es
          ∧ releases es = [] ∧ destroys es = []
          ∧ calls es = match cb with JFun f => [(f, [err; reply])] | _ => [] end
          ∧ uncaught es = [] ∧ acquisitions es = [].
Proof.
  intros Hfn w'. split; [|split].
  - destruct Hfn as [-> | [-> | [-> | ->]]]; reflexivity.
  - subst w'. simpl.
    assert (Hp : ∀ v : world, pool (this (if typeof cb =? "function" then invoke cb [err; reply] v else v))
                 = pool (this v)) by (intros v; by destruct cb).
    rewrite Hp. destruct (pool_release_frame client w1) as (Hq & _).
    by repeat case_match.
  - destruct (since_release client w1 w1 eq_refl) as (es & H1 & H2 & H3 & H4 & H5 & Hk).
    subst w'. simpl.
    destruct cb, (truthy err), ((funcName =? "hset") || (funcName =? "set")); simpl;
      (eexists; split; [after_release Hk|]);
      rewrite ?releases_app, ?destroys_app, ?calls_app, ?uncaught_app, ?acquisitions_app,
        ?H1, ?H2, ?H3, ?H4, ?H5; done.
Qed.

Lemma write_reply_released_then_passed_on_witness :
  write_like "set"
  ∧ pool (this (fire (H_set "set" 0 (JFun 1)) (JStr "ERR") JUndefined set_in_flight))
    = (Pool.release 0 (pool (this set_in_flight))).1.
Proof.
  split; [by left|].
  apply (write_reply_released_then_passed_on "set" (JStr "k") JNull (JStr "v") (JFun 1) 0
           (JStr "ERR") JUndefined fresh set_in_flight).
  by left.
Defined.

(** C7 as stated fails: the store rejects a SET and the redis client passes
    no reply; the continuation receives the error with [undefined], not with
    [null]. *)
Lemma write_error_reply_is_not_nulled :
  calls (since set_in_flight (step (In_reply 0 (JStr "ERR") JUndefined) set_in_flight))
    = [(1, [JStr "ERR"; JUndefined])]
  ∧ calls (since set_in_flight (step (In_reply 0 (JStr "ERR") JUndefined) set_in_flight))
    ≠ [(1, [JStr "ERR"; JNull])].
Proof. split; [reflexivity | discriminate]. Qed.

(* ------------------------------------------------------------------ *)
(** ** Blocking pops *)
(* ------------------------------------------------------------------ *)

(** C3.  For BLPOP and BRPOP: a two-element reply is passed on with a
    [null] error; when the store reports no error and the reply is absent or
    has no second element, the continuation receives the string
    ["got bad reply from redis"] and an empty array.  Nothing is thrown. *)
Theorem blocking_pop_reply funcName key field f client r w w1 :
  blocking_pop funcName →
  requests (acquired (A_get funcName key field (JFun f)) client w)
    = (requests w ++
       [mkRequest (Pooled client) funcName [key; JNum 0]
          (H_blocking funcName client (JFun f) (length (responded w)))])%list
  ∧ (∀ a b, b ≠ JUndefined →
       let w' := fire (H_blocking funcName client (JFun f) r) JNull (JArr [a; b]) w1 in
       calls (since w1 w') = [(f, [JNull; JArr [a; b]])] ∧ uncaught (since w1 w') = [])
  ∧ (∀ err reply, truthy err = false →
       truthy reply = false ∨ index reply 1 = JUndefined →
       let w' := fire (H_blocking funcName client (JFun f) r) err reply w1 in
       calls (since w1 w') = [(f, [JStr "got bad reply from redis"; JArr []])]
       ∧ uncaught (since w1 w') = []).
Proof.
  intros Hfn.
  destruct (since_release client (mark_responded r w1) w1 eq_refl)
    as (es & H1 & H2 & H3 & H4 & H5 & Hk).
  split; [|split].
  - destruct Hfn as [-> | ->]; reflexivity.
  - intros a b Hb w'. subst w'. simpl.
    assert ((typeof b =? "undefined") = false) as -> by by destruct b.
    rewrite_release Hk.
    change (E_release client :: ?l) with ([E_release client] ++ l)%list.
    by rewrite !calls_app, !uncaught_app, H1, H2.
  - intros err reply Herr Hbad w'. subst w'. simpl. rewrite Herr.
    assert (negb (truthy reply) || (typeof (index reply 1) =? "undefined") = true) as ->.
    { destruct Hbad as [-> | ->]; [done | by rewrite orb_true_r]. }
    rewrite_release Hk.
    change (E_release client :: ?l) with ([E_release client] ++ l)%list.
    by rewrite !calls_app, !uncaught_app, H1, H2.
Qed.

Lemma blocking_pop_reply_witness :
  blocking_pop "blpop"
  ∧ calls (since blpop_in_flight
             (fire (H_blocking "blpop" 0 (JFun 1) 0) JNull (JArr [JStr "q"; JStr "value1"])
                blpop_in_flight))
    = [(1, [JNull; JArr [JStr "q"; JStr "value1"]])]
  ∧ calls (since blpop_in_flight
             (fire (H_blocking "blpop" 0 (JFun 1) 0) JNull (JArr [JStr "q"]) blpop_in_flight))
    = [(1, [JStr "got bad reply from redis"; JArr []])].
Proof.
  pose proof (blocking_pop_reply "blpop" (JStr "q") JNull 1 0 0 fresh blpop_in_flight
                (or_introl eq_refl)) as (_ & Hgood & Hbad).
  split; [by left|]. split.
  - apply (Hgood (JStr "q") (JStr "value1")). discriminate.
  - apply (Hbad JNull (JArr [JStr "q"])); [reflexivity | by right].
Defined.

(* ------------------------------------------------------------------ *)
(** ** clean *)
(* ------------------------------------------------------------------ *)

Lemma delete_each_trace names w :
  ∃ es, trace (delete_each names w) = (trace w ++ es)%list ∧
        acquisitions es = (fun name => A_single "del" name JUndefined) <$> names ∧
        calls es = [] ∧ uncaught es = [].
Proof.
  revert w. induction names as [|name names IH]; intros w.
  - exists []. by rewrite app_nil_r.
  - simpl. unfold del, redisSingle.
    set (w0 := emit _ w).
    destruct (pool_acquire_frame (A_single "del" name JUndefined) w0)
      as (_ & _ & _ & _ & es1 & Htr1 & Hes1).
    destruct (IH (pool_acquire (A_single "del" name JUndefined) w0)) as (es2 & Htr2 & Ha & Hc & Hu).
    assert (calls es1 = [] ∧ uncaught es1 = [] ∧ acquisitions es1 = []) as (Hc1 & Hu1 & Ha1).
    { destruct (Pool.acquire _ _).2 as [[a c]|]; [|by subst es1].
      split_and!; eauto using issue_only_calls, issue_only_uncaught,
        issue_only_acquisitions. }
    eexists. split.
    + rewrite Htr2, Htr1. subst w0. simpl. rewrite <- !app_assoc. reflexivity.
    + rewrite !acquisitions_app, !calls_app, !uncaught_app. simpl.
      by rewrite Ha, Hc, Hu, Ha1, Hc1, Hu1.
Qed.

Lemma trace_quit a w : trace (quit a w) = trace w.
Proof. unfold quit. by destruct (direct w !! a). Qed.

#[local] Arguments quit : simpl never.

Lemma pool_acquire_exhausted a w :
  exhausted w →
  let w' := pool_acquire a w in
  exhausted w'
  ∧ Pool.waiting (pool (this w')) = (Pool.waiting (pool (this w)) ++ [a])%list
  ∧ requests w' = requests w
  ∧ trace w' = (trace w ++ [E_acquire a])%list.
Proof.
  intros [Hi Hr]. unfold pool_acquire, Pool.acquire. rewrite Hi, Hr. simpl.
  unfold exhausted, Pool.has_room, Pool.size in *. simpl. rewrite Hi in *. done.
Qed.

Lemma delete_each_exhausted names w :
  exhausted w →
  let w' := delete_each names w in
  exhausted w'
  ∧ Pool.waiting (pool (this w')) = (Pool.waiting (pool (this w)) ++ deletions names)%list
  ∧ requests w' = requests w
  ∧ trace w' = (trace w ++ deletion_events names)%list.
Proof.
  revert w. induction names as [|name names IH]; intros w Hw.
  - simpl. by rewrite !app_nil_r.
  - simpl. unfold del, redisSingle.
    set (w0 := emit _ w).
    assert (Hw0 : exhausted w0) by exact Hw.
    destruct (pool_acquire_exhausted (A_single "del" name JUndefined) w0 Hw0)
      as (He & Hq & Hrq & Htr).
    destruct (IH _ He) as (He' & Hq' & Hrq' & Htr').
    split_and!; [done| | |].
    + rewrite Hq', Hq. simpl. by rewrite <- app_assoc.
    + by rewrite Hrq', Hrq.
    + rewrite Htr', Htr. unfold deletion_events. simpl. by rewrite <- !app_assoc.
Qed.

Lemma requests_quit a w : requests (quit a w) = requests w.
Proof. unfold quit. by destruct (direct w !! a). Qed.

Lemma deletion_events_only names es :
  acquisitions (deletion_events names ++ es) = (deletions names ++ acquisitions es)%list
  ∧ sent_on (deletion_events names ++ es) = sent_on es
  ∧ calls (deletion_events names ++ es) = calls es.
Proof.
  induction names as [|name names IH]; [done|].
  change (deletion_events (name :: names))
    with ([E_log "redis-connection-pool: deleting name " [name];
           E_acquire (A_single "del" name JUndefined)] ++ deletion_events names)%list.
  rewrite <- app_assoc, acquisitions_app, sent_on_app, calls_app.
  destruct IH as (-> & -> & ->). done.
Qed.

(** C8 on the code.  The reply callback of [clean] calls the completion
    continuation right after the loop that calls [del], and [del] only asks
    the pool for a connection.  When the pool has nothing idle and no room
    (every connection is held by an unanswered command), the callback
    queues one acquisition per key, sends no DEL, and calls the
    continuation all the same: completion is signalled while nothing has
    been deleted and every deletion still waits for a connection. *)
Theorem clean_signals_completion_with_no_delete_sent key f a err names w w1 :
  Pool.idle (pool (this w1)) = [] →
  Pool.has_room (pool (this w1)) = false →
  let w' := fire (H_keys a key (JFun f)) err (JArr names) w1 in
  requests (clean key (JFun f) w)
    = (requests w ++
       [mkRequest (Direct (length (direct w))) "keys" [key]
          (H_keys (length (direct w)) key (JFun f))])%list
  ∧ (∃ logs, since w1 w' = (deletion_events names ++ logs ++ [E_call f []])%list
             ∧ ∀ e, e ∈ logs → ∃ text vals, e = E_log text vals)
  ∧ acquisitions (since w1 w') = deletions names
  ∧ sent_on (since w1 w') = []
  ∧ calls (since w1 w') = [(f, [])]
  ∧ requests w' = requests w1
  ∧ Pool.waiting (pool (this w'))
    = (Pool.waiting (pool (this w1)) ++ deletions names)%list.
Proof.
  intros Hidle Hroom w'.
  assert (Hthis : this (quit a w1) = this w1)
    by (unfold quit; by destruct (direct w1 !! a)).
  assert (Hq : exhausted (quit a w1)) by (unfold exhausted; by rewrite Hthis).
  destruct (delete_each_exhausted names _ Hq) as (_ & Hwait & Hrq & Htr).
  rewrite Hthis in Hwait. rewrite requests_quit in Hrq. rewrite trace_quit in Htr.
  pose proof (deletion_events_only names) as Hev.
  assert (Hs : ∃ logs, since w1 w' = (deletion_events names ++ logs ++ [E_call f []])%list
                       ∧ (∀ e, e ∈ logs → ∃ text vals, e = E_log text vals)
                       ∧ acquisitions logs = [] ∧ sent_on logs = [] ∧ calls logs = []
                       ∧ requests w' = requests w1
                       ∧ Pool.waiting (pool (this w'))
                         = (Pool.waiting (pool (this w1)) ++ deletions names)%list).
  { subst w'. simpl. destruct (truthy err).
    - eexists [_]. split; [apply since_app; simpl; rewrite Htr, <- !app_assoc; reflexivity|].
      split_and!; try done.
      intros e He. apply list_elem_of_singleton in He. eauto.
    - exists []. split; [apply since_app; simpl; rewrite Htr, <- !app_assoc; reflexivity|].
      split_and!; try done.
      intros e He. by apply elem_of_nil in He. }
  destruct Hs as (logs & Hs & Hlogs & Hla & Hls & Hlc & Hr & Hw).
  destruct (Hev (logs ++ [E_call f []])%list) as (Ha & Hso & Hc).
  split_and!; try done.
  - by exists logs.
  - rewrite Hs, Ha, acquisitions_app, Hla. simpl. by rewrite app_nil_r.
  - by rewrite Hs, Hso, sent_on_app, Hls.
  - by rewrite Hs, Hc, calls_app, Hlc.
Qed.

Lemma clean_signals_completion_with_no_delete_sent_witness :
  let w' := step (In_reply 1 JNull (JArr [JStr "p:1"; JStr "p:2"])) pool_held in
  Pool.idle (pool (this pool_held)) = []
  ∧ Pool.has_room (pool (this pool_held)) = false
  ∧ acquisitions (since pool_held w')
    = [A_single "del" (JStr "p:1") JUndefined; A_single "del" (JStr "p:2") JUndefined]
  ∧ sent_on (since pool_held w') = []
  ∧ calls (since pool_held w') = [(2, [])]
  ∧ requests w'
    = [mkRequest (Pooled 0) "blpop" [JStr "q"; JNum 0] (H_blocking "blpop" 0 (JFun 1) 0)].
Proof.
  split; [reflexivity|]. split; [reflexivity|].
  pose proof (clean_signals_completion_with_no_delete_sent
                (JStr "p:*") 2 1 JNull [JStr "p:1"; JStr "p:2"] fresh
                (set_requests (delete 1 (requests pool_held)) pool_held)
                eq_refl eq_refl) as (_ & _ & Ha & Hs & Hc & Hr & _).
  split; [exact Ha|]. split; [exact Hs|]. split; [exact Hc | exact Hr].
Defined.

(* ------------------------------------------------------------------ *)
(** ** The watchdog *)
(* ------------------------------------------------------------------ *)

Lemma pool_acquire_acquisitions a w : acquisitions (since w (pool_acquire a w)) = [a].
Proof.
  destruct (pool_acquire_frame a w) as (_ & _ & _ & _ & es & Htr & Hes).
  rewrite (since_app _ _ _ Htr).
  change (E_acquire a :: es) with ([E_acquire a] ++ es)%list. rewrite acquisitions_app.
  destruct (Pool.acquire a (pool (this w))).2 as [[a' c]|].
  - by rewrite (issue_only_acquisitions _ _ Hes).
  - by subst es.
Qed.

(** The [responded] variables are only ever added to by an acquisition
    being served. *)
Lemma responded_acquired a c w :
  ∃ l, responded (acquired a c w) = (responded w ++ l)%list.
Proof.
  destruct a as [fn key val | fn key field data cb | fn key field cb]; simpl.
  - exists []. rewrite app_nil_r. by destruct (truthy val).
  - exists []. rewrite app_nil_r. by repeat case_match.
  - unfold redisGet, redisBlockingGet, redisHashGet.
    repeat case_match; simpl; first [by exists [false] | exists []; by rewrite app_nil_r].
Qed.

Lemma responded_pool_release c w :
  ∃ l, responded (pool_release c w) = (responded w ++ l)%list.
Proof.
  unfold pool_release. destruct (Pool.release c (pool (this w))) as [p [[a c']|]]; simpl.
  - apply (responded_acquired a c' (set_pool p (emit (E_release c) w))).
  - exists []. by rewrite app_nil_r.
Qed.

Lemma responded_after_reply funcName client key cb r err reply w :
  r < length (responded w) →
  responded (fire (H_get funcName client key cb r) err reply w) !! r = Some true.
Proof.
  intros Hr. simpl.
  destruct (responded_pool_release client (mark_responded r w)) as (l & Hl).
  assert (Hgoal : responded (pool_release client (mark_responded r w)) !! r = Some true).
  { rewrite Hl. apply lookup_app_l_Some. simpl. by apply list_lookup_insert_eq. }
  destruct (truthy err), cb; exact Hgoal.
Qed.

Lemma since_same w w' : trace w' = trace w → since w w' = [].
Proof. intros H. unfold since. rewrite H. apply drop_all. Qed.

(** The acquisition a method call requests: a watched one for [get] and
    [hgetall], one that arms no timer for every other method. *)
Lemma call_acquisition m w a :
  acquisitions (since w (call m w)) = [a] →
  (watched m ∧ ∃ funcName key field cb,
     (funcName = "get" ∨ funcName = "hgetall") ∧ a = A_get funcName key field cb)
  ∨ (¬ watched m ∧ ∀ client w1, timers (acquired a client w1) = timers w1).
Proof.
  assert (Hnot : ∀ m', (∀ key cb, m' ≠ M_get key cb) → (∀ key cb, m' ≠ M_hgetall key cb) →
                       ¬ watched m').
  { intros m' H1 H2 [(key & cb & ->) | (key & cb & ->)]; [by eapply H1 | by eapply H2]. }
  destruct m; simpl; intros Ha.
  - rewrite since_same in Ha; [discriminate|done].
  - unfold expire, redisSingle in Ha. rewrite pool_acquire_acquisitions in Ha.
    injection Ha as <-. right. split; [by apply Hnot|]. intros client w1. simpl.
    by destruct (truthy data).
  - unfold set, _setFuncs in Ha. simpl in Ha. rewrite pool_acquire_acquisitions in Ha.
    injection Ha as <-. by right; split; [apply Hnot|].
  - unfold get, _getFuncs in Ha. left. split; [left; eauto|].
    destruct (_ && _); rewrite pool_acquire_acquisitions in Ha; injection Ha as <-;
      eauto 10.
  - unfold del, redisSingle in Ha. rewrite pool_acquire_acquisitions in Ha.
    injection Ha as <-. by right; split; [apply Hnot|].
  - unfold hset, _setFuncs in Ha.
    destruct (typeof cb =? "undefined"); rewrite pool_acquire_acquisitions in Ha;
      injection Ha as <-; by right; split; [apply Hnot|].
  - unfold hget, _getFuncs in Ha.
    destruct (_ && _); rewrite pool_acquire_acquisitions in Ha; injection Ha as <-;
      (right; split; [by apply Hnot|]); intros client w1; simpl; unfold redisHashGet;
      by repeat case_match.
  - unfold hgetall, _getFuncs in Ha. left. split; [right; eauto|].
    destruct (_ && _); rewrite pool_acquire_acquisitions in Ha; injection Ha as <-;
      eauto 10.
  - unfold rpush, _setFuncs in Ha. simpl in Ha. rewrite pool_acquire_acquisitions in Ha.
    injection Ha as <-. by right; split; [apply Hnot|].
  - unfold lpush, _setFuncs in Ha. simpl in Ha. rewrite pool_acquire_acquisitions in Ha.
    injection Ha as <-. by right; split; [apply Hnot|].
  - unfold blpop, _getFuncs in Ha.
    destruct (_ && _); rewrite pool_acquire_acquisitions in Ha; injection Ha as <-;
      by right; split; [apply Hnot|].
  - unfold brpop, _getFuncs in Ha.
    destruct (_ && _); rewrite pool_acquire_acquisitions in Ha; injection Ha as <-;
      by right; split; [apply Hnot|].
  - erewrite since_app in Ha; [|unfold clean; simpl; rewrite <- app_assoc; reflexivity].
    discriminate.
  - rewrite since_same in Ha; [discriminate|done].
Qed.

Lemma watched_arms funcName key field cb client w1 :
  funcName = "get" ∨ funcName = "hgetall" →
  let w' := acquired (A_get funcName key field cb) client w1 in
  requests w' = (requests w1 ++
    [mkRequest (Pooled client) funcName [key]
       (H_get funcName client key cb (length (responded w1)))])%list
  ∧ armed_since w1 w' = [(5000%Z, T_watchdog funcName key client (length (responded w1)))]
  ∧ responded w' !! length (responded w1) = Some false.
Proof.
  intros [-> | ->]; simpl; unfold armed_since; simpl;
    rewrite drop_app_length, list_lookup_middle; done.
Qed.

Lemma watchdog_fires funcName key client r w2 :
  responded w2 !! r = Some false →
  let w3 := fire_timer (T_watchdog funcName key client r) w2 in
  pool (this w3) = (Pool.destroy client (pool (this w2))).1
  ∧ destroys (since w2 w3) = [client] ∧ releases (since w2 w3) = [].
Proof.
  intros Hr. simpl. rewrite Hr. simpl.
  set (w0 := emit _ w2).
  destruct (pool_destroy_frame client w0) as (Hp & _ & _ & _ & es & Htr & Hes).
  split; [exact Hp|].
  assert (destroys es = [] ∧ releases es = []) as [Hd Hrel].
  { destruct (Pool.destroy client (pool (this w0))).2 as [[a c]|]; [|by subst es].
    eauto using issue_only_destroys, issue_only_releases. }
  erewrite since_app; [|rewrite Htr; subst w0; simpl; rewrite <- app_assoc; reflexivity].
  simpl. rewrite Hd, Hrel. done.
Qed.

(** C2.  Take any method call that asks the pool for a connection, and the
    moment the pool hands one over.  A timer is armed then exactly when the
    method is [get] or [hgetall]; it is one timer of 5000 ms for that
    connection, tied to a [responded] variable that starts false and that
    the reply callback sets.  When the timer fires with the variable still
    false it destroys the connection through the pool and releases nothing;
    with the variable true it does nothing. *)
Theorem watchdog_iff_get_or_hgetall m a client w w1 :
  acquisitions (since w (call m w)) = [a] →
  let w' := acquired a client w1 in
  (watched m ↔ armed_since w1 w' ≠ [])
  ∧ (watched m → ∃ funcName key cb,
       requests w' = (requests w1 ++
         [mkRequest (Pooled client) funcName [key]
            (H_get funcName client key cb (length (responded w1)))])%list
       ∧ armed_since w1 w'
         = [(5000%Z, T_watchdog funcName key client (length (responded w1)))]
       ∧ responded w' !! length (responded w1) = Some false)
  ∧ (∀ funcName key r w2, responded w2 !! r = Some false →
       let w3 := fire_timer (T_watchdog funcName key client r) w2 in
       pool (this w3) = (Pool.destroy client (pool (this w2))).1
       ∧ destroys (since w2 w3) = [client] ∧ releases (since w2 w3) = [])
  ∧ (∀ funcName key r w2, responded w2 !! r = Some true →
       fire_timer (T_watchdog funcName key client r) w2 = w2)
  ∧ (∀ funcName key cb r err reply w2, r < length (responded w2) →
       responded (fire (H_get funcName client key cb r) err reply w2) !! r = Some true).
Proof.
  intros Ha w'. subst w'.
  split_and!.
  - destruct (call_acquisition m w a Ha) as [(Hm & fn & key & fld & cb & Hfn & ->) | (Hm & Hno)].
    + destruct (watched_arms fn key fld cb client w1 Hfn) as (_ & -> & _). by split.
    + unfold armed_since. rewrite Hno, drop_all. by split.
  - intros Hm.
    destruct (call_acquisition m w a Ha) as [(_ & fn & key & fld & cb & Hfn & ->) | (Hn & _)];
      [|done].
    exists fn, key, cb. by apply watched_arms.
  - intros. by apply watchdog_fires.
  - intros funcName key r w2 Hr. simpl. by rewrite Hr.
  - intros. by apply responded_after_reply.
Qed.

Lemma watchdog_iff_get_or_hgetall_witness :
  acquisitions (since fresh (call (M_get (JStr "k") (JFun 1)) fresh))
    = [A_get "get" (JStr "k") JNull (JFun 1)]
  ∧ armed_since fresh (acquired (A_get "get" (JStr "k") JNull (JFun 1)) 0 fresh) ≠ [].
Proof.
  split; [reflexivity|].
  apply (watchdog_iff_get_or_hgetall (M_get (JStr "k") (JFun 1))
           (A_get "get" (JStr "k") JNull (JFun 1)) 0 fresh fresh eq_refl).
  left. by exists (JStr "k"), (JFun 1).
Defined.

(* ------------------------------------------------------------------ *)
(** ** A reply that arrives after the watchdog *)
(* ------------------------------------------------------------------ *)

Lemma watchdog_destroys funcName key client r w0 :
  Pool.wf (pool (this w0)) → client ∈ Pool.busy (pool (this w0)) →
  responded w0 !! r = Some false →
  destroyed client (fire_timer (T_watchdog funcName key client r) w0).
Proof.
  intros Hwf Hbusy Hr.
  destruct (watchdog_fires funcName key client r w0 Hr) as (Hp & _).
  unfold destroyed. rewrite Hp.
  split; [by apply PoolFacts.destroy_wf | by apply PoolFacts.destroy_busy].
Qed.

(** C4.  The watchdog of a GET or HGETALL fires first and destroys the
    connection; anything may happen next; then the original reply callback
    fires.  Nothing is thrown, the continuation is still called once, the
    release it performs leaves the pool as it was, so the connection is not
    in the idle set, and whatever happens afterwards no command is ever sent
    on that connection again. *)
Theorem late_reply_after_watchdog funcName key f client r err reply w0 ins :
  Pool.wf (pool (this w0)) →
  client ∈ Pool.busy (pool (this w0)) →
  responded w0 !! r = Some false →
  let w := run ins (fire_timer (T_watchdog funcName key client r) w0) in
  let w' := fire (H_get funcName client key (JFun f) r) err reply w in
  destroyed client w
  ∧ uncaught (since w w') = []
  ∧ calls (since w w') = [(f, [err; if truthy err then JNull else reply])]
  ∧ releases (since w w') = [client]
  ∧ pool (this w') = pool (this w)
  ∧ (client ∉ Pool.idle (pool (this w')))
  ∧ ∀ ins', client ∉ sent_on (since w' (run ins' w')).
Proof.
  intros Hwf Hbusy Hr w w'.
  assert (Hd : destroyed client w).
  { destruct (safe_run client ins (fire_timer (T_watchdog funcName key client r) w0))
      as (es & _ & K).
    apply K. by apply watchdog_destroys. }
  destruct Hd as [Hwf1 Hdead].
  pose proof (PoolFacts.release_dead client (pool (this w)) Hwf1 Hdead) as Hrel.
  destruct (pool_release_frame client (mark_responded r w)) as (Hp & _ & _ & _ & es & Htr & Hes).
  simpl in Hp, Hes. rewrite Hrel in Hp, Hes. simpl in Hp, Hes. subst es.
  assert (Hpool : pool (this w') = pool (this w)).
  { subst w'. simpl. by destruct (truthy err). }
  assert (Hsince : since w w'
            = (E_release client ::
               (if truthy err
                then [E_log ("ERROR: redis error (" +:+ funcName +:+ " ") [key; err];
                      E_call f [err; JNull]]
                else [E_call f [err; reply]]))%list).
  { subst w'. apply since_app. simpl.
    destruct (truthy err); simpl; rewrite Htr; simpl; rewrite <- ?app_assoc; done. }
  split_and!.
  - done.
  - rewrite Hsince. by destruct (truthy err).
  - rewrite Hsince. by destruct (truthy err).
  - rewrite Hsince. by destruct (truthy err).
  - done.
  - rewrite Hpool. destruct Hwf1 as (_ & _ & _ & Hx). by apply Hx in Hdead as [Hni _].
  - intros ins'. destruct (safe_run client ins' w') as (es' & Htr' & K).
    rewrite (since_app _ _ _ Htr'). apply K. unfold destroyed. by rewrite Hpool.
Qed.

Lemma late_reply_after_watchdog_witness :
  Pool.wf (pool (this get_in_flight))
  ∧ 0 ∈ Pool.busy (pool (this get_in_flight))
  ∧ responded get_in_flight !! 0 = Some false
  ∧ (0 ∉ Pool.idle
           (pool (this (fire (H_get "get" 0 (JStr "k") (JFun 1) 0) JNull (JStr "v")
                          (run [] (fire_timer (T_watchdog "get" (JStr "k") 0 0)
                                     get_in_flight)))))).
Proof.
  assert (Hwf : Pool.wf (pool (this get_in_flight))).
  { unfold Pool.wf. simpl. split_and!; intros c Hc.
    - by apply elem_of_nil in Hc.
    - apply list_elem_of_singleton in Hc. lia.
    - by apply elem_of_nil in Hc.
    - by apply elem_of_nil in Hc. }
  assert (Hbusy : 0 ∈ Pool.busy (pool (this get_in_flight))) by (simpl; by left).
  split; [exact Hwf|]. split; [exact Hbusy|]. split; [reflexivity|].
  apply (late_reply_after_watchdog "get" (JStr "k") 1 0 0 JNull (JStr "v") get_in_flight []
           Hwf Hbusy eq_refl).
Defined.

(* ------------------------------------------------------------------ *)
(** ** The capability probe *)
(* ------------------------------------------------------------------ *)

Lemma this_quit a w : this (quit a w) = this w.
Proof. unfold quit. by destruct (direct w !! a). Qed.

Lemma this_settle q s w : this (settle q s w) = this w.
Proof. unfold settle. by destruct (promises w !! q) as [[]|]. Qed.

Lemma trace_settle q s w : trace (settle q s w) = trace w.
Proof. unfold settle. by destruct (promises w !! q) as [[]|]. Qed.

Lemma direct_settle q s w : direct (settle q s w) = direct w.
Proof. unfold settle. by destruct (promises w !! q) as [[]|]. Qed.

Lemma promises_quit a w : promises (quit a w) = promises w.
Proof. unfold quit. by destruct (direct w !! a). Qed.

Lemma settle_pending q s w :
  promises w !! q = Some Pending → promises (settle q s w) !! q = Some s.
Proof.
  intros Hq. unfold settle. rewrite Hq. simpl.
  apply list_lookup_insert_eq. by eapply lookup_lt_Some.
Qed.

Lemma quit_closes a d w :
  direct w !! a = Some d →
  direct (quit a w) !! a = Some (mkDirect (dc_role d) (S (dc_quits d))).
Proof.
  intros Ha. unfold quit. rewrite Ha. simpl.
  apply list_lookup_insert_eq. by eapply lookup_lt_Some.
Qed.

(** C5, as the code has it.  [redisCheck] opens a client of its own, outside
    the pool.  On ['error'] and on ['ready'] alike the listener calls
    [quit()] on it, leaves the pool untouched and throws nothing; on
    ['error'] the pending promise is rejected with the error, on ['ready']
    it is resolved with the version string.  [check()] returns that promise;
    construction does not: it returns the instance (or what the registry
    held), never a promise. *)
Theorem probe_closed_and_promise_settled a q n w :
  direct w !! a = Some (mkDirect (Probe q) n) →
  promises w !! q = Some Pending →
  (∀ err, let w' := step (In_error a err) w in
     direct w' !! a = Some (mkDirect (Probe q) (S n))
     ∧ pool (this w') = pool (this w)
     ∧ trace w' = trace w
     ∧ promises w' !! q = Some (Rejected err))
  ∧ (∀ info, let w' := step (In_ready a info) w in
     direct w' !! a = Some (mkDirect (Probe q) (S n))
     ∧ pool (this w') = pool (this w)
     ∧ trace w' = trace w
     ∧ promises w' !! q = Some (Resolved (JStr (redis_version info))))
  ∧ (∀ v, let r := redisCheck v in
     check v = r
     ∧ direct r.1 !! length (direct v) = Some (mkDirect (Probe r.2) 0)
     ∧ promises r.1 !! r.2 = Some Pending
     ∧ pool (this r.1) = pool (this v))
  ∧ (∀ uid cfg rnd pr a' q', (exports uid cfg rnd pr).2 ≠ V_promise a' q').
Proof.
  intros Ha Hq. split_and!.
  - intros err w'. subst w'. simpl. rewrite Ha. unfold probe_error.
    rewrite direct_settle, this_settle, trace_settle, this_quit, trace_quit.
    split_and!; try done.
    + by rewrite (quit_closes a _ w Ha).
    + apply settle_pending. by rewrite promises_quit.
  - intros info w'. subst w'. simpl. rewrite Ha. unfold probe_ready.
    rewrite direct_settle, this_settle, trace_settle, this_quit, trace_quit.
    split_and!.
    + by rewrite (quit_closes a _ (set_this _ w) Ha).
    + by destruct (major_below_2 (versions info)).
    + done.
    + apply settle_pending. by rewrite promises_quit.
  - intros v r. subst r. unfold check, redisCheck. simpl. split_and!; try done.
    + by rewrite list_lookup_middle.
    + by rewrite list_lookup_middle.
  - intros uid cfg rnd pr a' q'. unfold exports.
    destruct (if arg_typeof uid =? "object" then _ else _) as [u c].
    unfold RedisConnectionPoolWrapper, registered.
    repeat case_match; simplify_eq; done.
Qed.

Lemma probe_closed_and_promise_settled_witness :
  direct fresh !! 0 = Some (mkDirect (Probe 0) 0)
  ∧ promises fresh !! 0 = Some Pending
  ∧ promises (step (In_error 0 (JStr "ECONNREFUSED")) fresh) !! 0
    = Some (Rejected (JStr "ECONNREFUSED")).
Proof.
  split; [reflexivity|]. split; [reflexivity|].
  apply (probe_closed_and_promise_settled 0 0 0 fresh eq_refl eq_refl).
Defined.

(** C5 as stated fails: the probe of a construction cannot connect and its
    promise is rejected, but what construction returned is the instance; no
    promise was handed to the caller. *)
Lemma construction_discards_probe_promise :
  let r := exports (Arg_string "x") Arg_undefined 0 start in
  let pr := deliver 0 (In_error 0 (JStr "ECONNREFUSED")) r.1 in
  r.2 = V_instance 0
  ∧ promises <$> heap pr !! 0 = Some [Rejected (JStr "ECONNREFUSED")]
  ∧ ¬ ∃ q, r.2 = V_promise 0 q.
Proof.
  split; [reflexivity|]. split; [reflexivity|]. intros [q Hq]. discriminate Hq.
Qed.

(** C6, amended.  The ['ready'] listener of the probe records the version
    string and the version array; when the first component of the array is
    below 2 it sets [BLOCKING_SUPPORT] to false, and otherwise it leaves the
    flag as it was.  A new instance has the flag true.  No other input (a
    method call, a store reply, a timer, a client error) changes the three
    capability properties. *)
Theorem probe_records_capabilities a q info major rest w :
  versions info = major :: rest →
  let w' := probe_ready a q info w in
  VERSION_STRING (this w') = Some (redis_version info)
  ∧ VERSION_ARRAY (this w') = Some (versions info)
  ∧ ((major < 2)%Z → BLOCKING_SUPPORT (this w') = false)
  ∧ ((2 ≤ major)%Z → BLOCKING_SUPPORT (this w') = BLOCKING_SUPPORT (this w))
  ∧ (∀ uid cfg rnd, BLOCKING_SUPPORT (this (RedisConnectionPool uid cfg rnd)) = true)
  ∧ (∀ i v, (∀ a' info', i ≠ In_ready a' info') → caps (this (step i v)) = caps (this v)).
Proof.
  intros Hv w'. subst w'. unfold probe_ready.
  rewrite this_settle, this_quit. simpl. rewrite Hv. simpl.
  split_and!.
  - by destruct (major <? 2)%Z.
  - by destruct (major <? 2)%Z.
  - intros Hlt. apply Z.ltb_lt in Hlt. by rewrite Hlt.
  - intros Hge. apply Z.ltb_ge in Hge. by rewrite Hge.
  - intros uid cfg rnd. unfold RedisConnectionPool. simpl.
    by destruct (match cfg_DEBUG cfg with JBool b => b | _ => prototype_DEBUG end).
  - intros i v Hi. by destruct (quiet_step 0 i v Hi) as [Hc _].
Qed.

Lemma probe_records_capabilities_witness :
  versions redis_1_2 = 1%Z :: [2; 6]%Z
  ∧ versions redis_2_6 = 2%Z :: [6; 14]%Z
  ∧ BLOCKING_SUPPORT (this (probe_ready 0 0 redis_1_2 fresh)) = false
  ∧ BLOCKING_SUPPORT (this (probe_ready 0 0 redis_2_6 fresh))
    = BLOCKING_SUPPORT (this fresh).
Proof.
  split; [reflexivity|]. split; [reflexivity|]. split.
  - pose proof (probe_records_capabilities 0 0 redis_1_2 1 [2; 6]%Z fresh eq_refl)
      as (_ & _ & Hold & _).
    apply Hold. lia.
  - pose proof (probe_records_capabilities 0 0 redis_2_6 2 [6; 14]%Z fresh eq_refl)
      as (_ & _ & _ & Hnew & _).
    apply Hnew. lia.
Defined.

(** C6 as stated fails: the probe of construction is answered by a 1.2
    store and clears the flag; [check()] probes again and is answered by a
    2.6 store.  The major version of this reply is 2, the version is
    recorded, and the flag is false, not true. *)
Lemma newer_store_reprobe_leaves_flag_false :
  let w := run [In_ready 0 redis_1_2; In_call M_check] fresh in
  let w' := step (In_ready 1 redis_2_6) w in
  versions redis_2_6 = [2; 6; 14]%Z
  ∧ direct w !! 1 = Some (mkDirect (Probe 1) 0)
  ∧ VERSION_ARRAY (this w') = Some [2; 6; 14]%Z
  ∧ VERSION_STRING (this w') = Some "2.6.14"
  ∧ BLOCKING_SUPPORT (this w') = false
  ∧ BLOCKING_SUPPORT (this w') ≠ true.
Proof. by split_and!; vm_compute. Qed.

(* ------------------------------------------------------------------ *)
(** ** The registry *)
(* ------------------------------------------------------------------ *)

(** The wrapper files every instance under the key it reads from the
    property [uid], which no instance has: the key is ["undefined"]. *)
Lemma filed_under_undefined uid cfg rnd :
  prop_key (Instance_get "uid" (this (RedisConnectionPool uid cfg rnd))) = "undefined".
Proof. reflexivity. Qed.

(** So no string other than ["undefined"] ever finds an instance. *)
Lemma wrapper_keys uid cfg rnd pr :
  dom (redisConnectionPools pr) ⊆ {["undefined"]} →
  dom (redisConnectionPools (RedisConnectionPoolWrapper uid cfg rnd pr).1) ⊆ {["undefined"]}.
Proof.
  intros Hdom. unfold RedisConnectionPoolWrapper.
  destruct (registered (prop_key uid) pr); [done|].
  cbn [fst redisConnectionPools]. rewrite filed_under_undefined, dom_insert.
  by apply union_least.
Qed.

Lemma wrapper_constructs_again x cfg rnd pr :
  x ≠ "undefined" → x ≠ "__proto__" →
  dom (redisConnectionPools pr) ⊆ {["undefined"]} →
  (RedisConnectionPoolWrapper (JStr x) cfg rnd pr).2 = V_instance (length (heap pr))
  ∧ heap (RedisConnectionPoolWrapper (JStr x) cfg rnd pr).1
    = (heap pr ++ [RedisConnectionPool (JStr x) cfg rnd])%list.
Proof.
  intros Hx1 Hx2 Hdom. unfold RedisConnectionPoolWrapper, registered. simpl.
  assert (redisConnectionPools pr !! x = None) as ->.
  { apply not_elem_of_dom. intros Hin. apply Hdom in Hin.
    by apply elem_of_singleton in Hin. }
  apply String.eqb_neq in Hx2. by rewrite Hx2.
Qed.

(** C1 on the code.  Two calls of the exported function with the identifier
    ["x"], first with [cfgA] and then with [cfgB]: the second call finds
    nothing under ["x"], constructs a second instance with a pool of its
    own, configured by [cfgB], and returns it. *)
Theorem same_identifier_constructs_twice :
  let r1 := exports (Arg_string "x") (Arg_config cfgA) 0 start in
  let r2 := exports (Arg_string "x") (Arg_config cfgB) 0 r1.1 in
  r1.2 = V_instance 0
  ∧ r2.2 = V_instance 1
  ∧ length (heap r2.1) = 2
  ∧ (MAX_CLIENTS ∘ this) <$> heap r2.1 = [5%Z; 10%Z]
  ∧ (Pool.max ∘ pool ∘ this) <$> heap r2.1 = [5%Z; 10%Z]
  ∧ redisConnectionPools r2.1 !! "x" = None
  ∧ redisConnectionPools r2.1 !! "undefined" = Some 1.
Proof. by split_and!; vm_compute. Qed.
End Props.

(* ================================================================== *)
(** * Further properties of the code *)
(* ================================================================== *)

Module Extras.
Import RCP Samples More Props.

(* ------------------------------------------------------------------ *)
(** ** The registry over a run of calls *)
(* ------------------------------------------------------------------ *)

Lemma filed_start : filed start.
Proof. reflexivity. Qed.

Lemma filed_wrapper uid cfg rnd pr :
  filed pr → filed (RedisConnectionPoolWrapper uid cfg rnd pr).1.
Proof.
  unfold filed, RedisConnectionPoolWrapper. intros Hf.
  destruct (registered (prop_key uid) pr); [done|].
  cbn [fst redisConnectionPools heap]. rewrite filed_under_undefined, Hf.
  destruct (heap pr) as [|w ws] eqn:Hh.
  - by rewrite insert_empty.
  - rewrite insert_singleton_eq. simpl. rewrite length_app. simpl.
    do 2 f_equal. lia.
Qed.

Lemma filed_exports uid cfg rnd pr : filed pr → filed (exports uid cfg rnd pr).1.
Proof.
  intros Hf. unfold exports.
  destruct (if arg_typeof uid =? "object" then _ else _) as [u c].
  by apply filed_wrapper.
Qed.

Lemma filed_exports_all cs pr : filed pr → filed (exports_all cs pr).
Proof.
  revert pr. induction cs as [|c cs IH]; intros pr Hf; [done|].
  simpl. apply IH. by apply filed_exports.
Qed.

Lemma filed_lookup pr k a :
  filed pr → redisConnectionPools pr !! k = Some a →
  k = "undefined" ∧ S a = length (heap pr).
Proof.
  unfold filed. intros -> Hk. destruct (heap pr) as [|w ws]; [done|].
  apply lookup_singleton_Some in Hk as [<- <-]. simpl. split; [done | lia].
Qed.

(** X1.  Whatever identifiers and configurations a run of calls of the
    exported function used, the registry holds at most one entry: its key
    is ["undefined"] and its value is the instance constructed last. *)
Theorem registry_holds_only_the_last cs k a :
  redisConnectionPools (exports_all cs start) !! k = Some a →
  k = "undefined" ∧ S a = length (heap (exports_all cs start)).
Proof. apply filed_lookup, filed_exports_all, filed_start. Qed.

Lemma registry_holds_only_the_last_witness :
  redisConnectionPools (exports_all two_calls start) !! "undefined" = Some 1
  ∧ 2 = length (heap (exports_all two_calls start)).
Proof.
  split; [reflexivity|].
  apply (registry_holds_only_the_last two_calls "undefined" 1). reflexivity.
Defined.

Lemma registered_undefined pr :
  filed pr → heap pr ≠ [] →
  registered "undefined" pr = Some (V_instance (length (heap pr) - 1)).
Proof.
  unfold filed, registered. intros -> Hne. destruct (heap pr) as [|w ws]; [done|].
  by rewrite lookup_singleton_eq.
Qed.

(** X2.  Once anything has been constructed, a call that leaves the
    identifier out, or passes the configuration first, or passes the string
    ["undefined"], constructs nothing and returns the instance constructed
    last, whatever configuration comes with it. *)
Theorem omitted_identifier_returns_the_last cs cfg c x rnd :
  let pr := exports_all cs start in
  heap pr ≠ [] →
  exports Arg_undefined cfg rnd pr = (pr, V_instance (length (heap pr) - 1))
  ∧ exports (Arg_config c) x rnd pr = (pr, V_instance (length (heap pr) - 1))
  ∧ exports (Arg_string "undefined") cfg rnd pr
    = (pr, V_instance (length (heap pr) - 1)).
Proof.
  intros pr Hne.
  pose proof (registered_undefined pr (filed_exports_all cs start filed_start) Hne) as Hr.
  unfold exports, RedisConnectionPoolWrapper. simpl.
  split_and!.
  - destruct (arg_typeof cfg =? "undefined"); simpl; by rewrite Hr.
  - by rewrite Hr.
  - destruct (arg_typeof cfg =? "undefined"); simpl; by rewrite Hr.
Qed.

Lemma omitted_identifier_returns_the_last_witness :
  heap (exports_all two_calls start) ≠ []
  ∧ (exports Arg_undefined (Arg_config cfgB) 7 (exports_all two_calls start)).2
    = V_instance 1.
Proof.
  assert (Hne : heap (exports_all two_calls start) ≠ []) by discriminate.
  split; [exact Hne|].
  destruct (omitted_identifier_returns_the_last two_calls (Arg_config cfgB) cfgB
              Arg_undefined 7 Hne) as (-> & _).
  reflexivity.
Defined.

Lemma constructed_UID x cfg rnd : UID (this (RedisConnectionPool (JStr x) cfg rnd)) = x.
Proof. unfold RedisConnectionPool. simpl. by destruct (cfg_DEBUG cfg) as [| |[]| | | | |]. Qed.

(** X3.  A string identifier other than ["undefined"] and ["__proto__"]
    never finds an instance, not even one constructed under that very
    identifier: every such call constructs a new instance and returns it,
    and leaves the instances constructed before as they were. *)
Theorem string_identifier_always_constructs cs x cfg rnd :
  let pr := exports_all cs start in
  x ≠ "undefined" → x ≠ "__proto__" →
  (exports (Arg_string x) cfg rnd pr).2 = V_instance (length (heap pr))
  ∧ ∃ w, heap (exports (Arg_string x) cfg rnd pr).1 = (heap pr ++ [w])%list
         ∧ UID (this w) = x.
Proof.
  intros pr Hx1 Hx2.
  assert (Hnone : registered x pr = None).
  { unfold registered.
    destruct (redisConnectionPools pr !! x) as [a|] eqn:Hk.
    - apply filed_lookup in Hk as [-> _]; [done|].
      apply filed_exports_all, filed_start.
    - apply String.eqb_neq in Hx2. by rewrite Hx2. }
  unfold exports, RedisConnectionPoolWrapper.
  destruct (arg_typeof cfg =? "undefined"); simpl; rewrite Hnone; simpl;
    (split; [done|]); eexists; (split; [reflexivity|]); apply constructed_UID.
Qed.

Lemma string_identifier_always_constructs_witness :
  "a" ≠ "undefined" ∧ "a" ≠ "__proto__"
  ∧ (exports (Arg_string "a") Arg_undefined 0 (exports_all two_calls start)).2
    = V_instance 2.
Proof.
  split; [discriminate|]. split; [discriminate|].
  apply (string_identifier_always_constructs two_calls "a" Arg_undefined 0);
    discriminate.
Defined.

(** X4.  The identifier ["__proto__"] finds the object every plain object
    inherits from: the call constructs nothing and returns
    [Object.prototype], which is no instance. *)
Theorem proto_identifier_returns_object_prototype cs cfg rnd :
  let pr := exports_all cs start in
  exports (Arg_string "__proto__") cfg rnd pr = (pr, V_object_prototype).
Proof.
  intros pr.
  assert (Hr : registered "__proto__" pr = Some V_object_prototype).
  { unfold registered.
    destruct (redisConnectionPools pr !! "__proto__") as [a|] eqn:Hk; [|done].
    apply filed_lookup in Hk as [[=] _]. apply filed_exports_all, filed_start. }
  unfold exports, RedisConnectionPoolWrapper.
  destruct (arg_typeof cfg =? "undefined"); simpl; by rewrite Hr.
Qed.

(* ------------------------------------------------------------------ *)
(** ** Read-like commands *)
(* ------------------------------------------------------------------ *)

Lemma logs_app es1 es2 : logs (es1 ++ es2) = (logs es1 ++ logs es2)%list.
Proof. apply omap_app. Qed.

Lemma issue_only_logs c es : issue_only c es → logs es = [].
Proof. by intros [-> | (cmd & args & ->)]. Qed.

Lemma trace_invoke cb args v : trace (invoke cb args v) = (trace v ++ [invoked cb args])%list.
Proof. by destruct cb. Qed.

(** The events of a read-like reply callback: the release, what the pool
    starts for a waiter ([es]), at most one log line ([lg]), and the call of
    the continuation, last. *)
Lemma read_fire client cb h err reply w :
  read_handler client cb h →
  ∃ es lg args,
    since w (fire h err reply w) = (E_release client :: es ++ lg ++ [invoked cb args])%list
    ∧ calls es = [] ∧ uncaught es = [] ∧ releases es = [] ∧ destroys es = []
    ∧ acquisitions es = []
    ∧ calls lg = [] ∧ uncaught lg = [] ∧ releases lg = [] ∧ destroys lg = []
    ∧ acquisitions lg = []
    ∧ (truthy err = true → args = [err; JNull])
    ∧ (truthy err = false →
       args = [err; reply] ∨ args = [JStr "got bad reply from redis"; JArr []]).
Proof.
  intros [(fn & key & r & ->) | [(key & ->) | (fn & r & ->)]].
  - destruct (since_release client (mark_responded r w) w eq_refl)
      as (es & H1 & H2 & H3 & H4 & H5 & Hk).
    exists es. simpl. destruct (truthy err).
    + eexists [_], _. split;
        [apply (Hk (fun v => invoke cb [err; JNull] (emit _ v)));
         intros v; rewrite trace_invoke; simpl; by rewrite <- app_assoc
        |split_and!; try done; eauto].
    + exists [], [err; reply]. split;
        [apply (Hk (fun v => invoke cb [err; reply] v)); intros v; apply trace_invoke
        |split_and!; try done; eauto].
  - destruct (since_release client w w eq_refl) as (es & H1 & H2 & H3 & H4 & H5 & Hk).
    exists es. simpl. destruct (truthy err).
    + eexists [_], _. split;
        [apply (Hk (fun v => invoke cb [err; JNull] (emit _ v)));
         intros v; rewrite trace_invoke; simpl; by rewrite <- app_assoc
        |split_and!; try done; eauto].
    + exists [], [err; reply]. split;
        [apply (Hk (fun v => invoke cb [err; reply] v)); intros v; apply trace_invoke
        |split_and!; try done; eauto].
  - destruct (since_release client (mark_responded r w) w eq_refl)
      as (es & H1 & H2 & H3 & H4 & H5 & Hk).
    exists es. simpl. destruct (truthy err).
    + eexists [_], _. split;
        [apply (Hk (fun v => invoke cb [err; JNull] (emit _ v)));
         intros v; rewrite trace_invoke; simpl; by rewrite <- app_assoc
        |split_and!; try done; eauto].
    + destruct (negb (truthy reply) || (typeof (index reply 1) =? "undefined")).
      * eexists [_], _. split;
          [apply (Hk (fun v => invoke cb [JStr "got bad reply from redis"; JArr []] (emit _ v)));
           intros v; rewrite trace_invoke; simpl; by rewrite <- app_assoc
          |split_and!; try done; eauto].
      * exists [], [err; reply]. split;
          [apply (Hk (fun v => invoke cb [err; reply] v)); intros v; apply trace_invoke
          |split_and!; try done; eauto].
Qed.

(** Serving a read-like acquisition registers exactly one request, with a
    read-like reply callback for the client handed over. *)
Lemma served_read funcName key field cb client w :
  read_like funcName →
  ∃ cmd args h,
    requests (acquired (A_get funcName key field cb) client w)
      = (requests w ++ [mkRequest (Pooled client) cmd args h])%list
    ∧ read_handler client cb h.
Proof.
  unfold read_handler.
  intros [-> | [-> | [-> | [-> | ->]]]]; simpl; unfold redisHashGet;
    try destruct (truthy field); simpl; eauto 12.
Qed.

Ltac events_of H :=
  rewrite H; change (E_release ?c :: ?l) with ([E_release c] ++ l)%list;
  rewrite ?calls_app, ?uncaught_app, ?releases_app, ?destroys_app, ?acquisitions_app.

(** X5.  On a store error every read-like command (GET, HGETALL, HGET,
    BLPOP, BRPOP) releases its connection and then hands its continuation
    the error with [null], whatever reply came along. *)
Theorem read_error_delivers_null funcName key field f client err w :
  read_like funcName →
  truthy err = true →
  ∃ cmd args h,
    requests (acquired (A_get funcName key field (JFun f)) client w)
      = (requests w ++ [mkRequest (Pooled client) cmd args h])%list
    ∧ ∀ reply w1,
        calls (since w1 (fire h err reply w1)) = [(f, [err; JNull])]
        ∧ uncaught (since w1 (fire h err reply w1)) = []
        ∧ releases (since w1 (fire h err reply w1)) = [client].
Proof.
  intros Hfn Herr.
  destruct (served_read funcName key field (JFun f) client w Hfn) as (cmd & args & h & Hrq & Hh).
  exists cmd, args, h. split; [exact Hrq|]. intros reply w1.
  destruct (read_fire client (JFun f) h err reply w1 Hh)
    as (es & lg & a & Hs & C1 & U1 & R1 & D1 & A1 & C2 & U2 & R2 & D2 & A2 & Ht & _).
  rewrite (Ht Herr) in Hs.
  split_and!; events_of Hs; by rewrite ?C1, ?U1, ?R1, ?C2, ?U2, ?R2.
Qed.

Lemma read_error_delivers_null_witness :
  read_like "hget" ∧ truthy (JStr "ERR") = true
  ∧ calls (since get_in_flight
             (fire (H_hashget 0 (JStr "h") (JFun 1)) (JStr "ERR") (JStr "stale") get_in_flight))
    = [(1, [JStr "ERR"; JNull])].
Proof.
  assert (Hfn : read_like "hget") by (right; right; by left).
  split; [exact Hfn|]. split; [reflexivity|].
  destruct (read_error_delivers_null "hget" (JStr "h") (JStr "f") 1 0 (JStr "ERR") fresh
              Hfn eq_refl) as (cmd & args & h & Hrq & Hfire).
  injection Hrq as <- <- <-.
  apply (Hfire (JStr "stale") get_in_flight).
Defined.

(** X6.  A read-like command called without a continuation still releases
    its connection when the reply arrives, and then throws: the callback
    calls [cb] unguarded, on success and on error alike. *)
Theorem read_without_continuation_throws funcName key field cb client w :
  read_like funcName →
  (∀ f, cb ≠ JFun f) →
  ∃ cmd args h,
    requests (acquired (A_get funcName key field cb) client w)
      = (requests w ++ [mkRequest (Pooled client) cmd args h])%list
    ∧ ∀ err reply w1,
        releases (since w1 (fire h err reply w1)) = [client]
        ∧ calls (since w1 (fire h err reply w1)) = []
        ∧ uncaught (since w1 (fire h err reply w1)) = ["TypeError: cb is not a function"].
Proof.
  intros Hfn Hcb.
  destruct (served_read funcName key field cb client w Hfn) as (cmd & args & h & Hrq & Hh).
  exists cmd, args, h. split; [exact Hrq|]. intros err reply w1.
  destruct (read_fire client cb h err reply w1 Hh)
    as (es & lg & a & Hs & C1 & U1 & R1 & D1 & A1 & C2 & U2 & R2 & D2 & A2 & _).
  assert (Hi : invoked cb a = E_uncaught "TypeError: cb is not a function").
  { destruct cb; try done. by destruct (Hcb f). }
  rewrite Hi in Hs.
  split_and!; events_of Hs; by rewrite ?C1, ?U1, ?R1, ?C2, ?U2, ?R2.
Qed.

Lemma read_without_continuation_throws_witness :
  read_like "get" ∧ (∀ f, JUndefined ≠ JFun f)
  ∧ uncaught (since fresh (run [In_call (M_get (JStr "k") JUndefined);
                                In_reply 0 JNull (JStr "v")] fresh))
    = ["TypeError: cb is not a function"].
Proof.
  assert (Hfn : read_like "get") by by left.
  assert (Hcb : ∀ f, JUndefined ≠ JFun f) by discriminate.
  split; [exact Hfn|]. split; [exact Hcb|].
  destruct (read_without_continuation_throws "get" (JStr "k") JUndefined JUndefined 0 fresh
              Hfn Hcb) as (cmd & args & h & Hrq & Hfire).
  injection Hrq as <- <- <-.
  destruct (Hfire JNull (JStr "v")
              (set_requests [] (get (JStr "k") JUndefined fresh))) as (_ & _ & Hu).
  exact Hu.
Defined.

(** X7.  For BLPOP and BRPOP with no store error, the reply is passed on
    unchanged exactly when it is truthy and has something at index 1; a
    [null] second element counts as present.  In every other case the
    continuation gets the bad-reply message. *)
Theorem blocking_reply_passes_iff_second_present funcName client f r err reply w :
  truthy err = false →
  let got := calls (since w (fire (H_blocking funcName client (JFun f) r) err reply w)) in
  (got = [(f, [err; reply])] ∨ got = [(f, [JStr "got bad reply from redis"; JArr []])])
  ∧ (got = [(f, [err; reply])] ↔ truthy reply = true ∧ index reply 1 ≠ JUndefined).
Proof.
  intros Herr got.
  destruct (since_release client (mark_responded r w) w eq_refl)
    as (es & H1 & H2 & H3 & H4 & H5 & Hk).
  assert (Hundef : ∀ v, (typeof v =? "undefined") = true ↔ v = JUndefined).
  { intros v. by destruct v. }
  subst got. simpl. rewrite Herr.
  destruct (truthy reply) eqn:Hr; simpl;
    [destruct (typeof (index reply 1) =? "undefined") eqn:Hu|];
    rewrite_release Hk;
    change (E_release client :: ?l) with ([E_release client] ++ l)%list;
    rewrite !calls_app, H1; simpl.
  - split; [by right|]. split.
    + intros [= <- <-]. by vm_compute in Herr.
    + intros [_ Hne]. by apply Hundef in Hu.
  - split; [by left|]. split; [|done]. intros _. split; [done|].
    intros Habs. apply Hundef in Habs. congruence.
  - split; [by right|]. split.
    + intros [= <- <-]. by vm_compute in Herr.
    + by intros [? _].
Qed.

Lemma blocking_reply_passes_iff_second_present_witness :
  truthy JNull = false
  ∧ calls (since blpop_in_flight
             (fire (H_blocking "blpop" 0 (JFun 1) 0) JNull (JArr [JStr "q"; JNull])
                blpop_in_flight))
    = [(1, [JNull; JArr [JStr "q"; JNull]])].
Proof.
  split; [reflexivity|].
  apply (blocking_reply_passes_iff_second_present "blpop" 0 1 0 JNull
           (JArr [JStr "q"; JNull]) blpop_in_flight eq_refl).
  split; [reflexivity | discriminate].
Defined.

(* ------------------------------------------------------------------ *)
(** ** Write-like and single commands *)
(* ------------------------------------------------------------------ *)

(** X8.  [hset] called with three arguments, no continuation: the shift
    meant for the two-argument commands applies, so HSET is sent with a
    [null] field and with [field] as the value; [data] is never sent, and it
    is [data] that is called on the reply if it happens to be a function. *)
Theorem hset_without_continuation_shifts key field data client err reply w w1 :
  hset key field data JUndefined w = pool_acquire (A_set "hset" key JNull field data) w
  ∧ acquired (A_set "hset" key JNull field data) client w1
    = send (Pooled client) "hset" [key; JNull; field] (H_set "hset" client data) w1
  ∧ calls (since w1 (fire (H_set "hset" client data) err reply w1))
    = match data with JFun g => [(g, [err; reply])] | _ => [] end.
Proof.
  split_and!; try reflexivity.
  destruct (since_release client w1 w1 eq_refl) as (es & H1 & H2 & H3 & H4 & H5 & Hk).
  simpl fire.
  destruct data, (truthy err); simpl; rewrite_release Hk;
    change (E_release client :: ?l) with ([E_release client] ++ l)%list;
    by rewrite !calls_app, H1.
Qed.

(** X9.  [expire] and [del] go through [redisSingle], which tests the
    truthiness of the value: a falsy time to live (0 in particular) is left
    out of the EXPIRE that is sent, a truthy one is sent along. *)
Theorem expire_sends_ttl_iff_truthy key data client w :
  let w' := acquired (A_single "expire" key data) client w in
  acquisitions (since w (expire key data w)) = [A_single "expire" key data]
  ∧ ∃ args, requests w' = (requests w ++
              [mkRequest (Pooled client) "expire" args (H_single client)])%list
            ∧ (truthy data = true → args = [key; data])
            ∧ (truthy data = false → args = [key]).
Proof.
  intros w'. split; [apply pool_acquire_acquisitions|].
  subst w'. simpl. destruct (truthy data); simpl; eexists; (split; [reflexivity|]); done.
Qed.

(** X10.  The reply to an EXPIRE or DEL is dropped: the callback releases
    the connection and nothing else; a store error is neither logged nor
    delivered, and nothing is thrown. *)
Theorem single_reply_is_dropped client err reply w :
  let es := since w (fire (H_single client) err reply w) in
  releases es = [client] ∧ destroys es = [] ∧ logs es = [] ∧ calls es = []
  ∧ uncaught es = [].
Proof.
  intros es. subst es. simpl.
  destruct (pool_release_frame client w) as (_ & _ & _ & _ & es & Htr & Hes).
  rewrite (since_app _ _ _ Htr).
  assert (releases es = [] ∧ destroys es = [] ∧ logs es = [] ∧ calls es = []
          ∧ uncaught es = []) as (R & D & L & C & U).
  { destruct (Pool.release client (pool (this w))).2 as [[a c]|]; [|by subst es].
    split_and!; eauto using issue_only_releases, issue_only_destroys, issue_only_logs,
      issue_only_calls, issue_only_uncaught. }
  change (E_release client :: es) with ([E_release client] ++ es)%list.
  by rewrite releases_app, destroys_app, logs_app, calls_app, uncaught_app, R, D, L, C, U.
Qed.

(* ------------------------------------------------------------------ *)
(** ** Acquire, send, release *)
(* ------------------------------------------------------------------ *)

(** Every reply callback of a pooled command begins by releasing the client
    it closes over, and releases or destroys nothing after that. *)
Lemma handler_releases_first h client err reply w :
  handler_client h = Pooled client →
  ∃ es, since w (fire h err reply w) = E_release client :: es
        ∧ releases es = [] ∧ destroys es = [].
Proof.
  destruct h as [c | fn c cb | fn c key cb r | c key cb | fn c cb r | a key cb];
    simpl; intros [= ->].
  - destruct (pool_release_frame client w) as (_ & _ & _ & _ & es & Htr & Hes).
    exists es. split; [by apply since_app|].
    destruct (Pool.release client (pool (this w))).2 as [[a c]|]; [|by subst es].
    eauto using issue_only_releases, issue_only_destroys.
  - destruct (since_release client w w eq_refl) as (es & H1 & H2 & H3 & H4 & H5 & Hk).
    destruct cb, (truthy err), ((fn =? "hset") || (fn =? "set")); simpl;
      (eexists; split; [after_release Hk|]);
      by rewrite ?releases_app, ?destroys_app, ?H4, ?H5.
  - destruct (read_fire client cb (H_get fn client key cb r) err reply w)
      as (es & lg & a & Hs & C1 & U1 & R1 & D1 & A1 & C2 & U2 & R2 & D2 & A2 & _).
    { left. eauto. }
    eexists. split; [exact Hs|].
    rewrite !releases_app, !destroys_app, R1, D1, R2, D2. by destruct cb.
  - destruct (read_fire client cb (H_hashget client key cb) err reply w)
      as (es & lg & a & Hs & C1 & U1 & R1 & D1 & A1 & C2 & U2 & R2 & D2 & A2 & _).
    { right. left. eauto. }
    eexists. split; [exact Hs|].
    rewrite !releases_app, !destroys_app, R1, D1, R2, D2. by destruct cb.
  - destruct (read_fire client cb (H_blocking fn client cb r) err reply w)
      as (es & lg & a & Hs & C1 & U1 & R1 & D1 & A1 & C2 & U2 & R2 & D2 & A2 & _).
    { right. right. eauto. }
    eexists. split; [exact Hs|].
    rewrite !releases_app, !destroys_app, R1, D1, R2, D2. by destruct cb.
Qed.

(** The acquisitions the methods request. *)
Lemma call_acquirer m w a :
  acquisitions (since w (call m w)) = [a] →
  (∃ funcName key val, a = A_single funcName key val)
  ∨ (∃ funcName key field data cb, a = A_set funcName key field data cb)
  ∨ (∃ funcName key field cb, read_like funcName ∧ a = A_get funcName key field cb).
Proof.
  unfold read_like.
  destruct m; simpl; intros Ha;
    unfold expire, set, get, del, hset, hget, hgetall, rpush, lpush, blpop, brpop,
      redisSingle, _setFuncs, _getFuncs in Ha;
    try (rewrite since_same in Ha; [discriminate|done]);
    try (erewrite since_app in Ha;
         [|unfold clean; simpl; rewrite <- app_assoc; reflexivity]; discriminate);
    repeat match type of Ha with
      | context [if ?b then _ else _] => destruct b
      end;
    rewrite pool_acquire_acquisitions in Ha; injection Ha as <-; eauto 15.
Qed.

Lemma served_once a client w :
  (∃ funcName key val, a = A_single funcName key val)
  ∨ (∃ funcName key field data cb, a = A_set funcName key field data cb)
  ∨ (∃ funcName key field cb, read_like funcName ∧ a = A_get funcName key field cb) →
  ∃ cmd args h,
    acquired a client w
      = set_timers (timers (acquired a client w))
          (set_responded (responded (acquired a client w))
             (send (Pooled client) cmd args h w))
    ∧ handler_client h = Pooled client.
Proof.
  intros [(fn & key & val & ->) | [(fn & key & fld & data & cb & ->)
                                   | (fn & key & fld & cb & Hfn & ->)]].
  - simpl. destruct (truthy val); eauto.
  - simpl. repeat case_match; eauto.
  - destruct Hfn as [-> | [-> | [-> | [-> | ->]]]]; simpl; unfold redisHashGet;
      try destruct (truthy fld); eauto.
Qed.

(** X11.  Every method that asks the pool for a connection sends, once it
    is served, exactly one command, on the connection it was handed; and the
    reply to that command, whatever it is, begins by releasing that
    connection, releases nothing else and destroys nothing. *)
Theorem served_command_releases_its_connection m a client w w0 :
  acquisitions (since w (call m w)) = [a] →
  ∃ cmd args h,
    requests (acquired a client w0)
      = (requests w0 ++ [mkRequest (Pooled client) cmd args h])%list
    ∧ since w0 (acquired a client w0) = [E_send (Pooled client) cmd args]
    ∧ ∀ err reply w1,
        ∃ es, since w1 (fire h err reply w1) = E_release client :: es
              ∧ releases es = [] ∧ destroys es = [].
Proof.
  intros Ha. apply call_acquirer in Ha.
  destruct (served_once a client w0 Ha) as (cmd & args & h & Heq & Hh).
  exists cmd, args, h. split_and!.
  - by rewrite Heq.
  - rewrite Heq. by apply since_app.
  - intros err reply w1. by apply handler_releases_first.
Qed.

Lemma served_command_releases_its_connection_witness :
  acquisitions (since fresh (call (M_del (JStr "k")) fresh))
    = [A_single "del" (JStr "k") JUndefined]
  ∧ since fresh (acquired (A_single "del" (JStr "k") JUndefined) 0 fresh)
    = [E_send (Pooled 0) "del" [JStr "k"]].
Proof.
  split; [reflexivity|].
  destruct (served_command_releases_its_connection (M_del (JStr "k"))
              (A_single "del" (JStr "k") JUndefined) 0 fresh fresh eq_refl)
    as (cmd & args & h & Hrq & Hs & _).
  injection Hrq as <- <- <-. exact Hs.
Defined.

(* ------------------------------------------------------------------ *)
(** ** clean *)
(* ------------------------------------------------------------------ *)

Lemma direct_pool_acquire a w : direct (pool_acquire a w) = direct w.
Proof. by destruct (pool_acquire_frame a w) as (_ & _ & _ & Hd & _). Qed.

Lemma direct_delete_each names w : direct (delete_each names w) = direct w.
Proof.
  revert w. induction names as [|name names IH]; intros w; [done|].
  simpl. rewrite IH. unfold del, redisSingle. by rewrite direct_pool_acquire.
Qed.

Lemma direct_invoke cb args w : direct (invoke cb args w) = direct w.
Proof. by destruct cb. Qed.

(** X12.  [clean] never touches the pool for its listing: it opens a client
    of its own, sends KEYS on it, and leaves the pool as it was; the reply
    callback closes that client, whatever the reply, also when the listing
    failed and when the callback goes on to throw. *)
Theorem clean_lists_on_its_own_client key cb w :
  let w' := clean key cb w in
  let a := length (direct w) in
  pool (this w') = pool (this w)
  ∧ direct w' = (direct w ++ [mkDirect Cleaner 0])%list
  ∧ requests w' = (requests w ++
      [mkRequest (Direct a) "keys" [key] (H_keys a key cb)])%list
  ∧ acquisitions (since w w') = []
  ∧ ∀ w1 n err reply,
      direct w1 !! a = Some (mkDirect Cleaner n) →
      direct (fire (H_keys a key cb) err reply w1) !! a = Some (mkDirect Cleaner (S n)).
Proof.
  intros w' a. split_and!; try reflexivity.
  - subst w'. erewrite since_app; [|unfold clean; simpl; rewrite <- app_assoc; reflexivity].
    reflexivity.
  - intros w1 n err reply Ha.
    pose proof (quit_closes a _ w1 Ha) as Hq. simpl in Hq.
    simpl fire. cbv zeta.
    destruct (truthy reply); [destruct (forEach_of reply)|];
      repeat first [ rewrite direct_invoke | rewrite direct_delete_each
                   | match goal with |- context [if ?b then _ else _] => destruct b end
                   | progress simpl ];
      exact Hq.
Qed.

(** X13.  [clean] called without a completion continuation requests every
    deletion all the same and then throws on the unguarded [cb()]. *)
Theorem clean_without_continuation_throws a key cb err names w :
  (∀ f, cb ≠ JFun f) →
  let es := since w (fire (H_keys a key cb) err (JArr names) w) in
  acquisitions es = (fun name => A_single "del" name JUndefined) <$> names
  ∧ calls es = []
  ∧ uncaught es = ["TypeError: cb is not a function"].
Proof.
  intros Hcb es.
  destruct (delete_each_trace names (quit a w)) as (ds & Htr & Ha & Hc & Hu).
  rewrite trace_quit in Htr.
  assert (Hi : ∀ v, trace (invoke cb [] v)
                    = (trace v ++ [E_uncaught "TypeError: cb is not a function"])%list).
  { intros v. destruct cb; try done. by destruct (Hcb f). }
  assert (Hs : ∃ lg, es = (ds ++ lg ++ [E_uncaught "TypeError: cb is not a function"])%list
                     ∧ acquisitions lg = [] ∧ calls lg = [] ∧ uncaught lg = []).
  { subst es. simpl fire. cbv zeta. simpl truthy. cbv iota. simpl forEach_of. cbv iota.
    destruct (truthy err).
    - eexists [_]. split;
        [apply since_app; rewrite Hi; simpl; rewrite Htr, <- !app_assoc; reflexivity
        |done].
    - exists []. split; [|done]. apply since_app. rewrite Hi, Htr, <- !app_assoc.
      reflexivity. }
  destruct Hs as (lg & -> & La & Lc & Lu).
  rewrite !acquisitions_app, !calls_app, !uncaught_app, Ha, Hc, Hu, La, Lc, Lu.
  simpl. by rewrite app_nil_r.
Qed.

Lemma clean_without_continuation_throws_witness :
  (∀ f, JUndefined ≠ JFun f)
  ∧ uncaught (since fresh (fire (H_keys 0 (JStr "p:*") JUndefined) JNull
                             (JArr [JStr "p:1"]) fresh))
    = ["TypeError: cb is not a function"].
Proof.
  assert (Hcb : ∀ f, JUndefined ≠ JFun f) by discriminate.
  split; [exact Hcb|].
  apply (clean_without_continuation_throws 0 (JStr "p:*") JUndefined JNull
           [JStr "p:1"] fresh Hcb).
Defined.

(* ------------------------------------------------------------------ *)
(** ** Capability flags and the debug timer *)
(* ------------------------------------------------------------------ *)

Lemma this_invoke cb args w : this (invoke cb args w) = this w.
Proof. by destruct cb. Qed.

Lemma step_keeps_cleared i w :
  BLOCKING_SUPPORT (this w) = false → BLOCKING_SUPPORT (this (step i w)) = false.
Proof.
  intros Hf.
  destruct i as [m | i err reply | j | a err | a info | c err];
    try (match goal with
         | |- context [step ?i w] =>
             assert (Hq : quiet 0 w (step i w)) by (apply quiet_step; discriminate)
         end;
         destruct Hq as [Hc _]; unfold caps in Hc; injection Hc as Hb _ _;
         exact (eq_trans Hb Hf)).
  simpl. destruct (direct w !! a) as [[[q| |type cb] n]|]; try done.
  - unfold probe_ready. rewrite this_settle, this_quit. simpl.
    by destruct (major_below_2 (versions info)).
  - repeat case_match; try done; by rewrite this_invoke.
  - exact Hf.
Qed.

(** X14.  Nothing ever sets [BLOCKING_SUPPORT] back to true: once a probe
    has cleared it, it stays false through every later input, a later probe
    of a newer store included. *)
Theorem blocking_support_never_restored ins w :
  BLOCKING_SUPPORT (this w) = false → BLOCKING_SUPPORT (this (run ins w)) = false.
Proof.
  revert w. induction ins as [|i ins IH]; intros w Hf; [done|].
  simpl. apply IH. by apply step_keeps_cleared.
Qed.

Lemma blocking_support_never_restored_witness :
  BLOCKING_SUPPORT (this (step (In_ready 0 redis_1_2) fresh)) = false
  ∧ BLOCKING_SUPPORT
      (this (run [In_call M_check; In_ready 1 redis_2_6] (step (In_ready 0 redis_1_2) fresh)))
    = false.
Proof.
  split; [reflexivity|].
  apply (blocking_support_never_restored [In_call M_check; In_ready 1 redis_2_6]
           (step (In_ready 0 redis_1_2) fresh)).
  reflexivity.
Defined.

(** X15.  With [DEBUG] set, construction arms one timer of 300000 ms for
    [poolStats]; when it fires, the function reads an undeclared variable
    [pool], throws, and is not armed again.  Without [DEBUG] no timer is
    armed. *)
Theorem debug_statistics_timer_throws uid cfg rnd :
  let w := RedisConnectionPool uid cfg rnd in
  (cfg_DEBUG cfg = JBool true →
     timers w = [(300000%Z, T_poolStats)]
     ∧ uncaught (since w (step (In_timeout 0) w)) = ["ReferenceError: pool is not defined"]
     ∧ timers (step (In_timeout 0) w) = [])
  ∧ (cfg_DEBUG cfg ≠ JBool true → timers w = []).
Proof.
  intros w. subst w. unfold RedisConnectionPool. split.
  - intros ->. simpl. split_and!; try done.
  - intros Hd. destruct (cfg_DEBUG cfg) as [| |[]| | | | |]; done.
Qed.

Lemma debug_statistics_timer_throws_witness :
  cfg_DEBUG cfg_debug = JBool true
  ∧ timers (RedisConnectionPool (JStr "x") cfg_debug 0) = [(300000%Z, T_poolStats)].
Proof.
  split; [reflexivity|].
  apply (debug_statistics_timer_throws (JStr "x") cfg_debug 0). reflexivity.
Defined.

(* ------------------------------------------------------------------ *)
(** ** No connection carries two commands *)
(* ------------------------------------------------------------------ *)

Lemma exclusive_alt w :
  exclusive w ↔ tidy (pool (this w)) (in_flight w) ∧ consistent (requests w).
Proof. unfold exclusive, tidy, consistent. tauto. Qed.

Lemma NoDup_snoc_conn (l : list conn) c : NoDup l → c ∉ l → NoDup (l ++ [c]).
Proof.
  intros Hl Hc. apply NoDup_app. split; [done|]. split.
  - intros x Hx ->%list_elem_of_singleton. done.
  - apply NoDup_singleton.
Qed.

(** Instantiates the five pointwise facts at the connection of the goal and
    at the connections named, and decides the goal from them. *)
Ltac pointwise Hib Hfi Hfc Hic Hbc cs :=
  let x := fresh "x" in
  intros x;
  pose proof (Hib x); pose proof (Hfi x); pose proof (Hfc x);
  pose proof (Hic x); pose proof (Hbc x);
  let rec at_each l :=
    lazymatch l with
    | @nil _ => idtac
    | @cons _ ?c ?l' =>
        pose proof (Hib c); pose proof (Hfi c); pose proof (Hfc c);
        pose proof (Hic c); pose proof (Hbc c); at_each l'
    end in
  at_each cs;
  rewrite ?elem_of_app, ?elem_of_cons, ?list_elem_of_singleton,
    ?PoolFacts.elem_of_without, ?elem_of_nil in *;
  intuition (subst; eauto; lia).

Lemma acquire_tidy a p fl : tidy p fl → dispenses_tidily (Pool.acquire a p) fl.
Proof.
  unfold dispenses_tidily, tidy, Pool.acquire.
  intros (Hfl & Hid & Hib & Hfi & Hfc & Hic & Hbc).
  destruct (Pool.idle p) as [|c rest] eqn:Hidle.
  - destruct (Pool.has_room p); simpl; rewrite ?Hidle.
    + split.
      * split_and!; try done; pointwise Hib Hfi Hfc Hic Hbc (@nil conn).
      * intros a' c' [= _ <-]. split_and!; try done;
          try pointwise Hib Hfi Hfc Hic Hbc [Pool.created p].
        apply NoDup_snoc_conn; [done|]. intros Hin. apply Hfc in Hin. lia.
    + split; [|discriminate]. split_and!; try done.
  - apply NoDup_cons in Hid as [Hc Hrest]. simpl. split.
    + split_and!; try done; pointwise Hib Hfi Hfc Hic Hbc [c].
    + intros a' c' [= _ <-]. split_and!; try done;
        try pointwise Hib Hfi Hfc Hic Hbc [c].
      apply NoDup_snoc_conn; [done|]. intros Hin. apply (Hfi c Hin). by left.
Qed.

Lemma NoDup_without c (l : list conn) : NoDup l → NoDup (Pool.without c l).
Proof. apply NoDup_filter. Qed.

Lemma release_tidy c p fl :
  tidy p fl → c ∉ fl → dispenses_tidily (Pool.release c p) fl.
Proof.
  unfold dispenses_tidily, tidy, Pool.release.
  intros (Hfl & Hid & Hib & Hfi & Hfc & Hic & Hbc) Hc.
  case_bool_decide as Hbusy; [|split; [done | discriminate]].
  destruct (Pool.waiting p) as [|a ws]; simpl.
  - split; [|discriminate]. split_and!; try done;
      try pointwise Hib Hfi Hfc Hic Hbc [c].
    apply NoDup_snoc_conn; [done|]. intros Hin. by apply (Hib c).
  - split; [done|]. intros a' c' [= _ <-]. split_and!; try done;
      try pointwise Hib Hfi Hfc Hic Hbc [c].
    by apply NoDup_snoc_conn.
Qed.

Lemma destroy_tidy c p fl : tidy p fl → dispenses_tidily (Pool.destroy c p) fl.
Proof.
  unfold dispenses_tidily, tidy, Pool.destroy.
  intros (Hfl & Hid & Hib & Hfi & Hfc & Hic & Hbc).
  case_bool_decide as Htracked; [|split; [done | discriminate]].
  cbv zeta. simpl Pool.waiting.
  assert (Hid' : NoDup (Pool.without c (Pool.idle p))) by by apply NoDup_without.
  destruct (Pool.waiting p) as [|a ws]; simpl.
  - split; [|discriminate]. split_and!; try done; pointwise Hib Hfi Hfc Hic Hbc [c].
  - destruct (Pool.has_room _); simpl.
    + split.
      * split_and!; try done; pointwise Hib Hfi Hfc Hic Hbc [c].
      * intros a' c' [= _ <-]. split_and!; try done;
          try pointwise Hib Hfi Hfc Hic Hbc [c; Pool.created p].
        apply NoDup_snoc_conn; [done|]. intros Hin. apply Hfc in Hin. lia.
    + split; [|discriminate]. split_and!; try done; pointwise Hib Hfi Hfc Hic Hbc [c].
Qed.

Lemma acquired_requests a c w :
  this (acquired a c w) = this w
  ∧ (requests (acquired a c w) = requests w
     ∨ ∃ cmd args h,
         requests (acquired a c w) = (requests w ++ [mkRequest (Pooled c) cmd args h])%list
         ∧ handler_client h = Pooled c).
Proof.
  destruct a as [fn key val | fn key field data cb | fn key field cb]; simpl.
  - destruct (truthy val); simpl; eauto 10.
  - repeat case_match; simpl; eauto 10.
  - unfold redisGet, redisBlockingGet, redisHashGet.
    repeat case_match; simpl; eauto 10.
Qed.

Lemma consistent_snoc rqs rq :
  consistent rqs → rq_client rq = handler_client (rq_handler rq) → consistent (rqs ++ [rq]).
Proof.
  intros Hc Hrq x [Hx | ->%list_elem_of_singleton]%elem_of_app; [by apply Hc | done].
Qed.

Lemma exclusive_same w w' :
  requests w' = requests w → pool (this w') = pool (this w) → exclusive w → exclusive w'.
Proof.
  intros Hr Hp. rewrite !exclusive_alt. unfold in_flight. by rewrite Hr, Hp.
Qed.

Lemma exclusive_dispensed p d e w :
  exclusive w → dispenses_tidily (p, d) (in_flight w) →
  exclusive (resume d (set_pool p (emit e w))).
Proof.
  rewrite exclusive_alt. intros [_ Hcons] [Ht Hd]. simpl in Ht, Hd.
  destruct d as [[a c]|]; simpl.
  - destruct (acquired_requests a c (set_pool p (emit e w))) as [Hthis Hrq].
    apply exclusive_alt. rewrite Hthis. simpl.
    destruct Hrq as [Hrq | (cmd & args & h & Hrq & Hh)]; unfold in_flight; rewrite Hrq; simpl.
    + done.
    + rewrite omap_app. simpl. split; [by eapply Hd|].
      apply consistent_snoc; [done | simpl; by rewrite Hh].
  - by apply exclusive_alt.
Qed.

Lemma exclusive_pool_acquire a w : exclusive w → exclusive (pool_acquire a w).
Proof.
  intros Hw. unfold pool_acquire.
  pose proof (acquire_tidy a (pool (this w)) (in_flight w)) as Ht.
  destruct (Pool.acquire a (pool (this w))) as [p d].
  apply exclusive_dispensed; [done|]. apply Ht. by apply exclusive_alt in Hw as [? _].
Qed.

Lemma exclusive_pool_destroy c w : exclusive w → exclusive (pool_destroy c w).
Proof.
  intros Hw. unfold pool_destroy.
  pose proof (destroy_tidy c (pool (this w)) (in_flight w)) as Ht.
  destruct (Pool.destroy c (pool (this w))) as [p d].
  apply exclusive_dispensed; [done|]. apply Ht. by apply exclusive_alt in Hw as [? _].
Qed.

Lemma exclusive_pool_release c w :
  exclusive w → c ∉ in_flight w → exclusive (pool_release c w).
Proof.
  intros Hw Hc. unfold pool_release.
  pose proof (release_tidy c (pool (this w)) (in_flight w)) as Ht.
  destruct (Pool.release c (pool (this w))) as [p d].
  apply exclusive_dispensed; [done|]. apply Ht; [|done].
  by apply exclusive_alt in Hw as [? _].
Qed.

Lemma exclusive_emit e w : exclusive w → exclusive (emit e w).
Proof. by apply (exclusive_same w). Qed.

Lemma exclusive_invoke cb args w : exclusive w → exclusive (invoke cb args w).
Proof. destruct cb; by apply (exclusive_same w). Qed.

Lemma exclusive_quit a w : exclusive w → exclusive (quit a w).
Proof. unfold quit. destruct (direct w !! a); try done; by apply (exclusive_same w). Qed.

Lemma exclusive_settle q s w : exclusive w → exclusive (settle q s w).
Proof.
  unfold settle. destruct (promises w !! q) as [[]|]; try done; by apply (exclusive_same w).
Qed.

Lemma exclusive_delete_each names w : exclusive w → exclusive (delete_each names w).
Proof.
  revert w. induction names as [|name names IH]; intros w Hw; [done|].
  simpl. apply IH. unfold del, redisSingle. by apply exclusive_pool_acquire, exclusive_emit.
Qed.

Lemma in_flight_invoke cb args w : in_flight (invoke cb args w) = in_flight w.
Proof. by destruct cb. Qed.

Create HintDb excl.
#[local] Hint Resolve exclusive_emit exclusive_invoke exclusive_quit exclusive_settle
  exclusive_delete_each exclusive_pool_acquire exclusive_pool_destroy : excl.

(** A reply callback keeps the bookkeeping sound when the connection it
    closes over has no other command in flight. *)
Lemma exclusive_fire h err reply w :
  exclusive w →
  (∀ c, handler_client h = Pooled c → c ∉ in_flight w) →
  exclusive (fire h err reply w).
Proof.
  intros Hw Hc.
  destruct h as [c | fn c cb | fn c key cb r | c key cb | fn c cb r | a key cb];
    simpl in Hc |- *.
  - apply exclusive_pool_release; auto.
  - assert (exclusive (pool_release c w)) by (apply exclusive_pool_release; auto).
    repeat case_match; auto with excl.
  - assert (exclusive (pool_release c (mark_responded r w))).
    { apply exclusive_pool_release; [by apply (exclusive_same w) | by apply Hc]. }
    repeat case_match; auto with excl.
  - assert (exclusive (pool_release c w)) by (apply exclusive_pool_release; auto).
    repeat case_match; auto with excl.
  - assert (exclusive (pool_release c (mark_responded r w))).
    { apply exclusive_pool_release; [by apply (exclusive_same w) | by apply Hc]. }
    repeat case_match; auto with excl.
  - repeat case_match; simplify_eq; auto 6 with excl.
Qed.

Lemma exclusive_fire_timer t w : exclusive w → exclusive (fire_timer t w).
Proof. intros Hw. destruct t; simpl; repeat case_match; auto with excl. Qed.

Lemma exclusive_send_direct a cmd args key cb w :
  exclusive w → exclusive (send (Direct a) cmd args (H_keys a key cb) w).
Proof.
  rewrite !exclusive_alt. intros [Ht Hc]. unfold in_flight. simpl.
  rewrite omap_app. simpl. rewrite app_nil_r. split; [done|].
  by apply consistent_snoc.
Qed.

Lemma exclusive_call m w : exclusive w → exclusive (call m w).
Proof.
  intros Hw.
  destruct m; simpl;
    unfold on, expire, set, get, del, hset, hget, hgetall, rpush, lpush, blpop, brpop,
      check, redisCheck, redisSingle, _setFuncs, _getFuncs, createClient;
    simpl; repeat case_match; auto with excl;
    try (by apply (exclusive_same w)).
  unfold clean, createClient. simpl.
  apply exclusive_send_direct. by apply (exclusive_same w).
Qed.

Lemma omap_answered {A B} (f : A → option B) (l : list A) i x :
  l !! i = Some x →
  omap f l = (omap f (take i l) ++ option_list (f x) ++ omap f (drop (S i) l))%list
  ∧ omap f (delete i l) = (omap f (take i l) ++ omap f (drop (S i) l))%list.
Proof.
  intros Hi. split.
  - rewrite <- (take_drop_middle _ _ _ Hi) at 1. rewrite omap_app. simpl.
    by destruct (f x).
  - by rewrite delete_take_drop, omap_app.
Qed.

(** Removing the request that is answered: the rest stays sound, and the
    connection of the answered request carries nothing else. *)
Lemma exclusive_answered i rq w :
  exclusive w → requests w !! i = Some rq →
  let w1 := set_requests (delete i (requests w)) w in
  exclusive w1 ∧ ∀ c, handler_client (rq_handler rq) = Pooled c → c ∉ in_flight w1.
Proof.
  intros Hw Hi w1. apply exclusive_alt in Hw as [Ht Hc].
  destruct (omap_answered
              (fun rq => match rq_client rq with Pooled c => Some c | Direct _ => None end)
              _ _ _ Hi) as [Hall Hrest].
  fold (in_flight w) in Hall.
  set (A := omap _ (take i (requests w))) in *.
  set (B := omap _ (drop (S i) (requests w))) in *.
  change (in_flight w1 = (A ++ B)%list) in Hrest.
  destruct Ht as (Hfl & Hid & Hib & Hfi & Hfc & Hic & Hbc).
  assert (Hsub : ∀ c, c ∈ in_flight w1 → c ∈ in_flight w).
  { intros c. rewrite Hrest, Hall, !elem_of_app. tauto. }
  rewrite Hall in Hfl.
  apply NoDup_app in Hfl as (HA & HAB & HB). apply NoDup_app in HB as (Hmid & HmB & HB).
  split.
  - apply exclusive_alt. split.
    + split_and!; simpl; try done; eauto.
      rewrite Hrest. apply NoDup_app. split; [done|]. split; [|done].
      intros x Hx HxB. apply (HAB x Hx). apply elem_of_app. by right.
    + intros x Hx. apply Hc. exact (list_elem_of_delete_inv x i (requests w) Hx).
  - intros c Hh.
    assert (Hrq : rq_client rq = Pooled c).
    { rewrite <- Hh. apply Hc. by eapply list_elem_of_lookup_2. }
    rewrite Hrq in HAB, HmB. simpl in HAB, HmB.
    rewrite Hrest. intros [HcA | HcB]%elem_of_app.
    + apply (HAB c HcA). by left.
    + apply (HmB c); [by left | done].
Qed.

Lemma exclusive_step i w : exclusive w → exclusive (step i w).
Proof.
  intros Hw.
  destruct i as [m | i err reply | j | a err | a info | c err]; simpl.
  - by apply exclusive_call.
  - destruct (requests w !! i) as [rq|] eqn:Hi; [|done].
    destruct (exclusive_answered i rq w Hw Hi) as [H1 H2].
    by apply exclusive_fire.
  - destruct (timers w !! j) as [[ms t]|]; [|done].
    apply exclusive_fire_timer. by apply (exclusive_same w).
  - unfold probe_error. repeat case_match; auto with excl.
  - unfold probe_ready. repeat case_match; auto with excl;
      apply exclusive_settle, exclusive_quit; by apply (exclusive_same w).
  - by apply exclusive_emit.
Qed.

Lemma exclusive_run ins w : exclusive w → exclusive (run ins w).
Proof.
  revert w. induction ins as [|i ins IH]; intros w Hw; [done|].
  simpl. by apply IH, exclusive_step.
Qed.

Lemma exclusive_constructed uid cfg rnd : exclusive (RedisConnectionPool uid cfg rnd).
Proof.
  unfold RedisConnectionPool. simpl.
  destruct (match cfg_DEBUG cfg with JBool b => b | _ => prototype_DEBUG end); simpl;
    unfold exclusive; simpl; split_and!; try apply NoDup_nil_2;
    intros c Hc; by apply elem_of_nil in Hc.
Qed.

(** X16.  From construction on, whatever the callers, the store and the
    timers do, no pooled connection ever carries two unanswered commands,
    and a connection that carries one is not in the idle set. *)
Theorem connections_are_never_shared uid cfg rnd ins :
  let w := run ins (RedisConnectionPool uid cfg rnd) in
  NoDup (in_flight w) ∧ ∀ c, c ∈ in_flight w → c ∉ Pool.idle (pool (this w)).
Proof.
  intros w.
  assert (Hw : exclusive w) by apply exclusive_run, exclusive_constructed.
  destruct Hw as (H1 & _ & _ & H4 & _). by split.
Qed.

(* ------------------------------------------------------------------ *)
(** ** A watchdog and its command *)
(* ------------------------------------------------------------------ *)

(** [watchdogs_live] survives whatever keeps the timers, only appends to the
    [responded] variables and only adds requests. *)
Lemma live_grows w w' :
  watchdogs_live w →
  timers w' = timers w →
  (∃ l, responded w' = (responded w ++ l)%list) →
  (∀ rq, rq ∈ requests w → rq ∈ requests w') →
  watchdogs_live w'.
Proof.
  intros [H1 H2] Ht [l Hl] Hr. split.
  - intros ms fn key c r Hin Hf. rewrite Ht in Hin.
    pose proof (H2 _ _ _ _ _ Hin) as Hlt.
    rewrite Hl, lookup_app_l in Hf by done.
    destruct (H1 _ _ _ _ _ Hin Hf) as [cb Hcb]. exists cb. by apply Hr.
  - intros ms fn key c r Hin. rewrite Ht in Hin. rewrite Hl, length_app.
    pose proof (H2 _ _ _ _ _ Hin). lia.
Qed.

Lemma live_same w w' :
  watchdogs_live w → timers w' = timers w → responded w' = responded w →
  requests w' = requests w → watchdogs_live w'.
Proof.
  intros Hw Ht Hr Hq. apply (live_grows w); [done | done | |].
  - exists []. by rewrite app_nil_r.
  - intros rq. by rewrite Hq.
Qed.

Lemma live_redisGet funcName client key cb w :
  watchdogs_live w → watchdogs_live (redisGet funcName client key cb w).
Proof.
  intros [H1 H2].
  set (r0 := length (responded w)).
  assert (Ht : timers (redisGet funcName client key cb w)
               = (timers w ++ [(5000%Z, T_watchdog funcName key client r0)])%list) by done.
  assert (Hr : responded (redisGet funcName client key cb w)
               = (responded w ++ [false])%list) by done.
  assert (Hq : requests (redisGet funcName client key cb w)
               = (requests w ++ [mkRequest (Pooled client) funcName [key]
                                   (H_get funcName client key cb r0)])%list) by done.
  split; rewrite Ht, Hr, ?Hq.
  - intros ms fn k c r [Hin | Hnew]%elem_of_app Hf.
    + pose proof (H2 _ _ _ _ _ Hin) as Hlt.
      rewrite lookup_app_l in Hf by done.
      destruct (H1 _ _ _ _ _ Hin Hf) as [cb' Hcb]. exists cb'.
      apply elem_of_app. by left.
    + apply list_elem_of_singleton in Hnew. injection Hnew as -> -> -> -> ->.
      exists cb. apply elem_of_app. right. by apply list_elem_of_singleton.
  - intros ms fn k c r [Hin | Hnew]%elem_of_app; rewrite length_app; simpl.
    + pose proof (H2 _ _ _ _ _ Hin). lia.
    + apply list_elem_of_singleton in Hnew. injection Hnew as -> -> -> -> ->.
      subst r0. lia.
Qed.

Lemma live_acquired a c w : watchdogs_live w → watchdogs_live (acquired a c w).
Proof.
  intros Hw.
  assert (Hsend : ∀ cl cmd args h, watchdogs_live (send cl cmd args h w)).
  { intros. apply (live_grows w); simpl; try done.
    - exists []. by rewrite app_nil_r.
    - intros rq Hrq. apply elem_of_app. by left. }
  destruct a as [fn key val | fn key field data cb | fn key field cb]; simpl.
  - destruct (truthy val); apply Hsend.
  - repeat case_match; apply Hsend.
  - repeat case_match; try done; try by apply live_redisGet.
    + unfold redisBlockingGet. apply (live_grows w); simpl; try done.
      * by exists [false].
      * intros rq Hrq. apply elem_of_app. by left.
    + unfold redisBlockingGet. apply (live_grows w); simpl; try done.
      * by exists [false].
      * intros rq Hrq. apply elem_of_app. by left.
    + unfold redisHashGet. destruct (truthy field); apply Hsend.
    + unfold redisHashGet. simpl. apply Hsend.
Qed.

Lemma live_dispensed p d e w :
  watchdogs_live w → watchdogs_live (resume d (set_pool p (emit e w))).
Proof.
  intros Hw. assert (watchdogs_live (set_pool p (emit e w))) by by apply (live_same w).
  destruct d as [[a c]|]; simpl; [by apply live_acquired | done].
Qed.

Lemma live_pool_acquire a w : watchdogs_live w → watchdogs_live (pool_acquire a w).
Proof.
  intros Hw. unfold pool_acquire. destruct (Pool.acquire a (pool (this w))).
  by apply live_dispensed.
Qed.

Lemma live_pool_release c w : watchdogs_live w → watchdogs_live (pool_release c w).
Proof.
  intros Hw. unfold pool_release. destruct (Pool.release c (pool (this w))).
  by apply live_dispensed.
Qed.

Lemma live_pool_destroy c w : watchdogs_live w → watchdogs_live (pool_destroy c w).
Proof.
  intros Hw. unfold pool_destroy. destruct (Pool.destroy c (pool (this w))).
  by apply live_dispensed.
Qed.

Lemma live_emit e w : watchdogs_live w → watchdogs_live (emit e w).
Proof. intros. by apply (live_same w). Qed.

Lemma live_invoke cb args w : watchdogs_live w → watchdogs_live (invoke cb args w).
Proof. intros. destruct cb; by apply (live_same w). Qed.

Lemma live_quit a w : watchdogs_live w → watchdogs_live (quit a w).
Proof. intros. unfold quit. destruct (direct w !! a); try done; by apply (live_same w). Qed.

Lemma live_settle q s w : watchdogs_live w → watchdogs_live (settle q s w).
Proof.
  intros. unfold settle. destruct (promises w !! q) as [[]|]; try done; by apply (live_same w).
Qed.

Lemma live_delete_each names w : watchdogs_live w → watchdogs_live (delete_each names w).
Proof.
  revert w. induction names as [|name names IH]; intros w Hw; [done|].
  simpl. apply IH. unfold del, redisSingle. by apply live_pool_acquire, live_emit.
Qed.

(** Setting a [responded] variable switches its watchdogs off and touches
    no other. *)
Lemma live_mark r w : watchdogs_live w → watchdogs_live (mark_responded r w).
Proof.
  intros [H1 H2]. unfold mark_responded. split; simpl.
  - intros ms fn key c r' Hin Hf.
    destruct (decide (r = r')) as [<- | Hne].
    + pose proof (H2 _ _ _ _ _ Hin) as Hlt.
      rewrite list_lookup_insert_eq in Hf by done. discriminate.
    + rewrite list_lookup_insert_ne in Hf by done. by eapply H1.
  - intros ms fn key c r' Hin. rewrite length_insert. by eapply H2.
Qed.

Create HintDb live.
#[local] Hint Resolve live_emit live_invoke live_quit live_settle live_delete_each
  live_pool_acquire live_pool_release live_pool_destroy live_mark : live.

Lemma live_fire h err reply w : watchdogs_live w → watchdogs_live (fire h err reply w).
Proof.
  intros Hw. destruct h; simpl; repeat case_match; simplify_eq; auto 8 with live.
Qed.

Lemma live_fire_timer t w : watchdogs_live w → watchdogs_live (fire_timer t w).
Proof. intros Hw. destruct t; simpl; repeat case_match; auto with live. Qed.

Lemma live_call m w : watchdogs_live w → watchdogs_live (call m w).
Proof.
  intros Hw.
  destruct m; simpl;
    unfold on, expire, set, get, del, hset, hget, hgetall, rpush, lpush, blpop, brpop,
      check, redisCheck, redisSingle, _setFuncs, _getFuncs, createClient;
    simpl; repeat case_match; auto with live;
    try (by apply (live_same w)).
  unfold clean, createClient. simpl. apply (live_grows w); simpl; try done.
  - exists []. by rewrite app_nil_r.
  - intros rq Hrq. apply elem_of_app. by left.
Qed.

Lemma elem_of_delete_other {A} (l : list A) i x y :
  x ∈ l → l !! i = Some y → x ≠ y → x ∈ delete i l.
Proof.
  intros Hx Hi Hne. rewrite delete_take_drop.
  rewrite <- (take_drop_middle _ _ _ Hi) in Hx.
  apply elem_of_app in Hx as [Hx | Hx]; [apply elem_of_app; by left|].
  apply elem_of_cons in Hx as [-> | Hx]; [done|]. apply elem_of_app. by right.
Qed.

(** Removing the request that is answered.  If it is a watched read, its
    callback sets the [responded] variable first, which switches its
    watchdog off; if it is any other command no watchdog depended on it. *)
Lemma live_answered i rq w :
  watchdogs_live w → requests w !! i = Some rq →
  let w1 := set_requests (delete i (requests w)) w in
  (∀ fn c key cb r, rq_handler rq = H_get fn c key cb r →
     watchdogs_live (mark_responded r w1))
  ∧ ((∀ fn c key cb r, rq_handler rq ≠ H_get fn c key cb r) → watchdogs_live w1).
Proof.
  intros [H1 H2] Hi w1. split.
  - intros fn c key cb r Hh. split; simpl.
    + intros ms fn' key' c' r' Hin Hf.
      pose proof (H2 _ _ _ _ _ Hin) as Hlt.
      destruct (decide (r = r')) as [<- | Hne].
      * rewrite list_lookup_insert_eq in Hf by done. discriminate.
      * rewrite list_lookup_insert_ne in Hf by done.
        destruct (H1 _ _ _ _ _ Hin Hf) as [cb' Hcb]. exists cb'.
        eapply elem_of_delete_other; [done | done |].
        intros <-. simpl in Hh. congruence.
    + intros ms fn' key' c' r' Hin. rewrite length_insert. by eapply H2.
  - intros Hother. split; simpl.
    + intros ms fn' key' c' r' Hin Hf.
      destruct (H1 _ _ _ _ _ Hin Hf) as [cb' Hcb]. exists cb'.
      eapply elem_of_delete_other; [done | done |].
      intros <-. by eapply Hother.
    + intros ms fn' key' c' r' Hin. by eapply H2.
Qed.

Lemma live_timer_fired j w :
  watchdogs_live w → watchdogs_live (set_timers (delete j (timers w)) w).
Proof.
  intros [H1 H2]. split; simpl.
  - intros ms fn key c r Hin%list_elem_of_delete_inv Hf. by eapply H1.
  - intros ms fn key c r Hin%list_elem_of_delete_inv. by eapply H2.
Qed.

Lemma live_step i w : watchdogs_live w → watchdogs_live (step i w).
Proof.
  intros Hw.
  destruct i as [m | i err reply | j | a err | a info | c err]; simpl.
  - by apply live_call.
  - destruct (requests w !! i) as [rq|] eqn:Hi; [|done].
    destruct (live_answered i rq w Hw Hi) as [Hget Hother].
    destruct (rq_handler rq) as [c | fn c cb | fn c key cb r | c key cb | fn c cb r | a key cb]
      eqn:Hh.
    2,4,5,6: (apply live_fire, Hother; intros; discriminate).
    + apply live_fire, Hother. intros; discriminate.
    + specialize (Hget fn c key cb r eq_refl). simpl.
      repeat case_match; auto with live.
  - destruct (timers w !! j) as [[ms t]|]; [|done].
    by apply live_fire_timer, live_timer_fired.
  - unfold probe_error. repeat case_match; auto with live.
  - unfold probe_ready. repeat case_match; auto with live;
      apply live_settle, live_quit; by apply (live_same w).
  - by apply live_emit.
Qed.

Lemma live_run ins w : watchdogs_live w → watchdogs_live (run ins w).
Proof.
  revert w. induction ins as [|i ins IH]; intros w Hw; [done|].
  simpl. by apply IH, live_step.
Qed.

Lemma live_constructed uid cfg rnd : watchdogs_live (RedisConnectionPool uid cfg rnd).
Proof.
  unfold RedisConnectionPool. simpl.
  destruct (match cfg_DEBUG cfg with JBool b => b | _ => prototype_DEBUG end); simpl;
    split; simpl; intros ms fn key c r Hin.
  all: try (apply list_elem_of_singleton in Hin; discriminate).
  all: by apply elem_of_nil in Hin.
Qed.

(** X17.  From construction on: when a watchdog fires and destroys a
    connection, the GET or HGETALL it was armed for is still unanswered on
    that very connection.  A watchdog never destroys a connection whose
    command has been answered, hence never one that has since been handed
    to another command. *)
Theorem watchdog_destroys_only_an_unanswered_read uid cfg rnd ins j ms fn key client r :
  let w := run ins (RedisConnectionPool uid cfg rnd) in
  timers w !! j = Some (ms, T_watchdog fn key client r) →
  destroys (since w (step (In_timeout j) w)) ≠ [] →
  destroys (since w (step (In_timeout j) w)) = [client]
  ∧ client ∈ in_flight w
  ∧ ∃ cb, mkRequest (Pooled client) fn [key] (H_get fn client key cb r) ∈ requests w.
Proof.
  intros w Hj Hd.
  assert (Hw : watchdogs_live w) by apply live_run, live_constructed.
  destruct Hw as [H1 H2].
  assert (Hin : (ms, T_watchdog fn key client r) ∈ timers w)
    by by eapply list_elem_of_lookup_2.
  pose proof (H2 _ _ _ _ _ Hin) as Hlt.
  destruct (lookup_lt_is_Some_2 _ _ Hlt) as [b Hb].
  set (w0 := set_timers (delete j (timers w)) w).
  assert (Hstep : step (In_timeout j) w = fire_timer (T_watchdog fn key client r) w0).
  { simpl. by rewrite Hj. }
  destruct b.
  - exfalso. apply Hd. rewrite Hstep. simpl.
    change (responded w0) with (responded w). rewrite Hb. simpl.
    by rewrite (since_same w w0).
  - destruct (H1 _ _ _ _ _ Hin Hb) as [cb Hcb].
    split_and!.
    + rewrite Hstep.
      destruct (watchdog_fires fn key client r w0 Hb) as (_ & Hds & _).
      exact Hds.
    + unfold in_flight. apply list_elem_of_omap. eexists. split; [exact Hcb | done].
    + by exists cb.
Qed.

Lemma watchdog_destroys_only_an_unanswered_read_witness :
  let w := run one_get (RedisConnectionPool (JStr "x") empty_config 0) in
  destroys (since w (step (In_timeout 0) w)) = [0]
  ∧ 0 ∈ in_flight w
  ∧ ∃ cb, mkRequest (Pooled 0) "get" [JStr "k"] (H_get "get" 0 (JStr "k") cb 0) ∈ requests w.
Proof.
  apply (watchdog_destroys_only_an_unanswered_read
           (JStr "x") empty_config 0 one_get 0 5000%Z "get" (JStr "k") 0 0);
    [reflexivity | vm_compute; discriminate].
Defined.

(* ------------------------------------------------------------------ *)
(** ** Clients opened outside the pool *)
(* ------------------------------------------------------------------ *)

Lemma open_same w w' :
  listeners_open w → direct w' = direct w → requests w' = requests w → listeners_open w'.
Proof. intros [H1 H2] Hd Hr. unfold listeners_open. by rewrite Hd, Hr. Qed.

(** Requests of pooled commands may be added freely. *)
Lemma open_requests w w' rq :
  listeners_open w → direct w' = direct w →
  requests w' = (requests w ++ [rq])%list → not_keys (rq_handler rq) →
  listeners_open w'.
Proof.
  intros [H1 H2] Hd Hr Hk. unfold listeners_open. rewrite Hd, Hr. split; [done|].
  intros x a key cb [Hx | ->%list_elem_of_singleton]%elem_of_app Hh; [by eapply H2|].
  by destruct (Hk a key cb).
Qed.

Lemma open_acquired a c w : listeners_open w → listeners_open (acquired a c w).
Proof.
  intros Hw.
  assert (Hsend : ∀ cmd args h, not_keys h → listeners_open (send (Pooled c) cmd args h w)).
  { intros cmd args h Hh. by eapply (open_requests w). }
  destruct a as [fn key val | fn key field data cb | fn key field cb]; simpl.
  - destruct (truthy val); by apply Hsend.
  - repeat case_match; by apply Hsend.
  - unfold redisGet, redisBlockingGet, redisHashGet.
    repeat case_match; try done;
      (eapply (open_requests w); [done | reflexivity | reflexivity | done]).
Qed.

Lemma open_dispensed p d e w :
  listeners_open w → listeners_open (resume d (set_pool p (emit e w))).
Proof.
  intros Hw. assert (listeners_open (set_pool p (emit e w))) by by apply (open_same w).
  destruct d as [[a c]|]; simpl; [by apply open_acquired | done].
Qed.

Lemma open_pool_acquire a w : listeners_open w → listeners_open (pool_acquire a w).
Proof.
  intros Hw. unfold pool_acquire. destruct (Pool.acquire a (pool (this w))).
  by apply open_dispensed.
Qed.

Lemma open_pool_release c w : listeners_open w → listeners_open (pool_release c w).
Proof.
  intros Hw. unfold pool_release. destruct (Pool.release c (pool (this w))).
  by apply open_dispensed.
Qed.

Lemma open_pool_destroy c w : listeners_open w → listeners_open (pool_destroy c w).
Proof.
  intros Hw. unfold pool_destroy. destruct (Pool.destroy c (pool (this w))).
  by apply open_dispensed.
Qed.

Lemma open_emit e w : listeners_open w → listeners_open (emit e w).
Proof. intros. by apply (open_same w). Qed.

Lemma open_invoke cb args w : listeners_open w → listeners_open (invoke cb args w).
Proof. intros. destruct cb; by apply (open_same w). Qed.

Lemma open_settle q s w : listeners_open w → listeners_open (settle q s w).
Proof.
  intros. unfold settle. destruct (promises w !! q) as [[]|]; try done; by apply (open_same w).
Qed.

Lemma open_mark r w : listeners_open w → listeners_open (mark_responded r w).
Proof. intros. by apply (open_same w). Qed.

Lemma open_delete_each names w : listeners_open w → listeners_open (delete_each names w).
Proof.
  revert w. induction names as [|name names IH]; intros w Hw; [done|].
  simpl. apply IH. unfold del, redisSingle. by apply open_pool_acquire, open_emit.
Qed.

(** [quit()] on a client that is no listener. *)
Lemma open_quit a w :
  listeners_open w →
  (∀ type cb n, direct w !! a ≠ Some (mkDirect (Listener type cb) n)) →
  listeners_open (quit a w).
Proof.
  intros [H1 H2] Hrole. unfold quit. destruct (direct w !! a) as [d|] eqn:Ha; [|done].
  split; simpl.
  - intros a' type cb n Hl. destruct (decide (a = a')) as [<- | Hne].
    + rewrite list_lookup_insert_eq in Hl by by eapply lookup_lt_Some.
      injection Hl as Hr Hn. destruct d as [role k]. simpl in *. subst role.
      by destruct (Hrole type cb k).
    + rewrite list_lookup_insert_ne in Hl by done. by eapply H1.
  - intros rq a' key cb Hrq Hh. destruct (H2 rq a' key cb Hrq Hh) as [n Hn].
    destruct (decide (a = a')) as [<- | Hne].
    + rewrite Ha in Hn. injection Hn as ->. exists (S n).
      by rewrite list_lookup_insert_eq by by eapply lookup_lt_Some.
    + exists n. by rewrite list_lookup_insert_ne.
Qed.

(** Opening a client. *)
Lemma open_createClient role w :
  listeners_open w → listeners_open (createClient role w).1.
Proof.
  intros [H1 H2]. unfold createClient. split; simpl.
  - intros a type cb n Hl. apply lookup_app_Some in Hl as [Hl | [_ Hl]]; [by eapply H1|].
    destruct (a - length (direct w)) as [|k]; simpl in Hl; [|done]. by injection Hl.
  - intros rq a key cb Hrq Hh. destruct (H2 rq a key cb Hrq Hh) as [n Hn].
    exists n. by apply lookup_app_l_Some.
Qed.

Create HintDb opn.
#[local] Hint Resolve open_emit open_invoke open_settle open_mark open_delete_each
  open_pool_acquire open_pool_release open_pool_destroy : opn.

Lemma open_fire h err reply w :
  listeners_open w →
  (∀ a key cb, h = H_keys a key cb → ∃ n, direct w !! a = Some (mkDirect Cleaner n)) →
  listeners_open (fire h err reply w).
Proof.
  intros Hw Hk.
  destruct h as [c | fn c cb | fn c key cb r | c key cb | fn c cb r | a key cb]; simpl;
    try (repeat case_match; simplify_eq; auto 8 with opn; fail).
  destruct (Hk a key cb eq_refl) as [n Hn].
  assert (Hq : listeners_open (quit a w)).
  { apply open_quit; [done|]. intros type cb' n'. by rewrite Hn. }
  repeat case_match; simplify_eq; auto 8 with opn.
Qed.

Lemma open_fire_timer t w : listeners_open w → listeners_open (fire_timer t w).
Proof. intros Hw. destruct t; simpl; repeat case_match; auto with opn. Qed.

Lemma open_call m w : listeners_open w → listeners_open (call m w).
Proof.
  intros Hw.
  destruct m; simpl;
    unfold on, expire, set, get, del, hset, hget, hgetall, rpush, lpush, blpop, brpop,
      check, redisCheck, redisSingle, _setFuncs, _getFuncs;
    try (repeat case_match; auto with opn; fail).
  - by apply open_createClient.
  - unfold clean.
    assert (H0 : listeners_open (emit (E_log "redis-connection-pool: clearing redis key " [key]) w))
      by by apply open_emit.
    pose proof (open_createClient Cleaner _ H0) as [H1 H2].
    split; simpl; [exact H1|].
    intros rq a k c [Hrq | ->%list_elem_of_singleton]%elem_of_app Hh.
    + by eapply H2.
    + simpl in Hh. injection Hh as <- _ _. exists 0. by rewrite list_lookup_middle.
  - assert (H0 : listeners_open (set_promises (promises w ++ [Pending]) w))
      by by apply (open_same w).
    apply (open_createClient (Probe (length (promises w))) _ H0).
Qed.

Lemma open_step i w : listeners_open w → listeners_open (step i w).
Proof.
  intros Hw.
  destruct i as [m | i err reply | j | a err | a info | c err]; simpl.
  - by apply open_call.
  - destruct (requests w !! i) as [rq|] eqn:Hi; [|done].
    assert (Hrq : rq ∈ requests w) by by eapply list_elem_of_lookup_2.
    destruct Hw as [H1 H2]. apply open_fire.
    + split; simpl; [exact H1|].
      intros x a key cb Hx%list_elem_of_delete_inv Hh. by eapply H2.
    + intros a key cb Hh. simpl. by eapply H2.
  - destruct (timers w !! j) as [[ms t]|]; [|done].
    apply open_fire_timer. by apply (open_same w).
  - destruct (direct w !! a) as [[[q| |type cb] n]|] eqn:Ha; try done.
    + unfold probe_error. apply open_settle, open_quit; [done|].
      intros type cb n'. by rewrite Ha.
    + repeat case_match; auto with opn; by apply (open_same w).
  - destruct (direct w !! a) as [[[q| |type cb] n]|] eqn:Ha; try done.
    + unfold probe_ready. apply open_settle, open_quit.
      * by apply (open_same w).
      * intros type cb n'. simpl. by rewrite Ha.
    + repeat case_match; auto with opn; by apply (open_same w).
  - by apply (open_same w).
Qed.

Lemma open_run ins w : listeners_open w → listeners_open (run ins w).
Proof.
  revert w. induction ins as [|i ins IH]; intros w Hw; [done|].
  simpl. by apply IH, open_step.
Qed.

Lemma open_constructed uid cfg rnd : listeners_open (RedisConnectionPool uid cfg rnd).
Proof.
  unfold RedisConnectionPool. simpl.
  destruct (match cfg_DEBUG cfg with JBool b => b | _ => prototype_DEBUG end); simpl;
    split; simpl.
  all: try (intros [|a] type cb n Hl; by simpl in Hl).
  all: intros rq a key cb Hrq; by apply elem_of_nil in Hrq.
Qed.

(** X18.  A client opened by [on] is never closed: from construction on,
    whatever happens, [quit()] has been called on no listening client.  (The
    probe clients and the clients of [clean] are the only ones closed.) *)
Theorem listening_clients_are_never_closed uid cfg rnd ins a type cb n :
  direct (run ins (RedisConnectionPool uid cfg rnd)) !! a
    = Some (mkDirect (Listener type cb) n) →
  n = 0.
Proof.
  intros Hl.
  destruct (open_run ins _ (open_constructed uid cfg rnd)) as [H1 _]. by eapply H1.
Qed.

Lemma listening_clients_are_never_closed_witness :
  direct (run listen_then_clean (RedisConnectionPool (JStr "x") empty_config 0)) !! 1
    = Some (mkDirect (Listener (JStr "message") (JFun 1)) 0)
  ∧ 0 = 0.
Proof.
  split; [reflexivity|].
  apply (listening_clients_are_never_closed
           (JStr "x") empty_config 0 listen_then_clean 1 (JStr "message") (JFun 1) 0).
  reflexivity.
Defined.

(* ------------------------------------------------------------------ *)
(** ** The capability properties are never read *)
(* ------------------------------------------------------------------ *)

Section Commute.

(** Any capability values. *)
Variable k : bool * option (list Z) * option string.

Lemma acquired_with_caps a c w :
  acquired a c (with_caps k w) = with_caps k (acquired a c w).
Proof.
  destruct a as [fn key val | fn key field data cb | fn key field cb]; simpl.
  - by destruct (truthy val).
  - by repeat case_match.
  - unfold redisGet, redisBlockingGet, redisHashGet. by repeat case_match.
Qed.

Lemma dispensed_with_caps p d e w :
  resume d (set_pool p (emit e (with_caps k w)))
    = with_caps k (resume d (set_pool p (emit e w))).
Proof.
  destruct d as [[a c]|]; simpl; [|done].
  by rewrite <- acquired_with_caps.
Qed.

Lemma pool_acquire_with_caps a w :
  pool_acquire a (with_caps k w) = with_caps k (pool_acquire a w).
Proof.
  unfold pool_acquire. simpl. destruct (Pool.acquire a (pool (this w))) as [p d].
  apply dispensed_with_caps.
Qed.

Lemma pool_release_with_caps c w :
  pool_release c (with_caps k w) = with_caps k (pool_release c w).
Proof.
  unfold pool_release. simpl. destruct (Pool.release c (pool (this w))) as [p d].
  apply dispensed_with_caps.
Qed.

Lemma pool_destroy_with_caps c w :
  pool_destroy c (with_caps k w) = with_caps k (pool_destroy c w).
Proof.
  unfold pool_destroy. simpl. destruct (Pool.destroy c (pool (this w))) as [p d].
  apply dispensed_with_caps.
Qed.

Lemma invoke_with_caps cb args w :
  invoke cb args (with_caps k w) = with_caps k (invoke cb args w).
Proof. by destruct cb. Qed.

Lemma quit_with_caps a w : quit a (with_caps k w) = with_caps k (quit a w).
Proof. unfold quit. simpl. by destruct (direct w !! a). Qed.

Lemma settle_with_caps q s w : settle q s (with_caps k w) = with_caps k (settle q s w).
Proof. unfold settle. simpl. by destruct (promises w !! q) as [[]|]. Qed.

Lemma delete_each_with_caps names w :
  delete_each names (with_caps k w) = with_caps k (delete_each names w).
Proof.
  revert w. induction names as [|name names IH]; intros w; [done|].
  simpl. rewrite <- IH. f_equal. unfold del, redisSingle.
  rewrite <- pool_acquire_with_caps. done.
Qed.

Lemma fire_with_caps h err reply w :
  fire h err reply (with_caps k w) = with_caps k (fire h err reply w).
Proof.
  destruct h as [c | fn c cb | fn c key cb r | c key cb | fn c cb r | a key cb]; simpl.
  - apply pool_release_with_caps.
  - rewrite pool_release_with_caps.
    repeat case_match; rewrite <- ?invoke_with_caps; done.
  - change (mark_responded r (with_caps k w)) with (with_caps k (mark_responded r w)).
    rewrite pool_release_with_caps.
    repeat case_match; rewrite <- ?invoke_with_caps; done.
  - rewrite pool_release_with_caps.
    repeat case_match; rewrite <- ?invoke_with_caps; done.
  - change (mark_responded r (with_caps k w)) with (with_caps k (mark_responded r w)).
    rewrite pool_release_with_caps.
    repeat case_match; rewrite <- ?invoke_with_caps; done.
  - rewrite quit_with_caps.
    destruct (truthy reply); [destruct (forEach_of reply)|]; simpl;
      rewrite ?delete_each_with_caps; destruct (truthy err);
      rewrite <- ?invoke_with_caps; done.
Qed.

Lemma fire_timer_with_caps t w :
  fire_timer t (with_caps k w) = with_caps k (fire_timer t w).
Proof.
  destruct t; simpl; [|done].
  destruct (negb _); [|done]. by rewrite <- pool_destroy_with_caps.
Qed.

Lemma call_with_caps m w : call m (with_caps k w) = with_caps k (call m w).
Proof.
  destruct m; simpl;
    unfold on, expire, set, get, del, hset, hget, hgetall, rpush, lpush, blpop, brpop,
      clean, check, redisCheck, redisSingle, _setFuncs, _getFuncs, createClient;
    simpl; repeat case_match; simplify_eq; rewrite <- ?pool_acquire_with_caps; done.
Qed.

(** X19.  No method call, store reply, timer or client error ever reads
    [BLOCKING_SUPPORT] or the recorded version: replacing the three
    capability properties by any values before such an input gives the same
    state as replacing them after it, with the same events.  In particular
    BLPOP and BRPOP are sent all the same when [BLOCKING_SUPPORT] is
    false. *)
Theorem capabilities_gate_nothing i w :
  (∀ a info, i ≠ In_ready a info) →
  step i (with_caps k w) = with_caps k (step i w)
  ∧ since (with_caps k w) (step i (with_caps k w)) = since w (step i w).
Proof.
  intros Hi.
  assert (Hstep : step i (with_caps k w) = with_caps k (step i w)).
  { destruct i as [m | i err reply | j | a err | a info | c err]; simpl.
    - apply call_with_caps.
    - destruct (requests w !! i) as [rq|]; [|done].
      by rewrite <- fire_with_caps.
    - destruct (timers w !! j) as [[ms t]|]; [|done].
      by rewrite <- fire_timer_with_caps.
    - destruct (direct w !! a) as [[[q| |type cb] n]|]; try done.
      + unfold probe_error. by rewrite quit_with_caps, settle_with_caps.
      + repeat case_match; rewrite <- ?invoke_with_caps; done.
    - by destruct (Hi a info).
    - done. }
  split; [exact Hstep|]. by rewrite Hstep.
Qed.
End Commute.

Lemma capabilities_gate_nothing_witness :
  let k := (false, None, None) in
  let i := In_call (M_blpop (JStr "q") (JFun 1)) in
  step i (with_caps k fresh) = with_caps k (step i fresh)
  ∧ since (with_caps k fresh) (step i (with_caps k fresh)) = since fresh (step i fresh).
Proof.
  apply (capabilities_gate_nothing (false, None, None)
           (In_call (M_blpop (JStr "q") (JFun 1))) fresh).
  intros a info. discriminate.
Defined.

End Extras.
